(** * Megaplexer: seven-segment multiplexing firmware (src/main.cpp)

    A shallow embedding of the firmware's three parts -- the digit state
    store [digitStates], the I2C update receiver [receiveEvent] and the scan
    driver [updateDisplay]/[loop] -- as programs of a small state-and-error
    monad, followed by the properties of the specification.

    Bytes and C integers are modelled as [Z] with the wrap-around written
    out; C arrays are lists whose out-of-range accesses are faults; the
    Arduino and Wire primitives are modelled by their effect on the pin
    levels, on the receive buffer and on an event trace.  The readings of
    [millis()] are inputs of [loop].  The receive handler is run between
    passes of [loop]; it writes the store only, the scan driver the pins
    only. *)

From Stdlib Require Import ZArith Lia.
From stdpp Require Import base option list gmap.

Local Open Scope Z_scope.

(** ** Configuration (the CONFIG block of main.cpp) *)

Definition NUM_DIGITS : Z := 6.

Definition commonPins : list Z := [3; 5; 6; 9; 10; 11].

Definition segmentPins : list Z := [0; 1; 2; 4; 7; 8; 12; 13].

Definition I2C_ADDRESS : Z := 9.

(** The polarity macro as configured in the repository.  The scan driver
    below takes the polarity as an argument, so that both wirings can be
    discussed. *)
Definition IS_COMMON_ANODE : bool := true.

(** ** Machine integers *)

(** Conversion of an [int] to [byte] (uint8_t). *)
Definition to_byte (x : Z) : Z := x mod 256.

(** Conversion to [unsigned long] (32 bits on the ATmega328P). *)
Definition to_ulong (x : Z) : Z := x mod 2 ^ 32.

(** ** Program state *)

Inductive table := TDigitStates | TCommonPins | TSegmentPins.

Inductive event :=
  | EvPinMode (pin : Z)
  | EvDigitalWrite (pin : Z) (level : bool)
  | EvDelayMicroseconds (us : Z)
  | EvIndex (t : table) (i : Z).

Inductive error :=
  | OutOfBounds (t : table) (i : Z)
  | OutOfFuel.

Record State := mkState {
  digitStates : list Z;       (* byte digitStates[6] *)
  rxBuffer : list Z;          (* Wire: bytes received and not yet read *)
  pins : gmap Z bool;         (* level last written to each pin *)
  lastUpdateTime : Z;         (* the static local of loop() *)
  trace : list event          (* what the program did, oldest first *)
}.

Definition set_digitStates (f : list Z → list Z) (s : State) : State :=
  mkState (f (digitStates s)) (rxBuffer s) (pins s) (lastUpdateTime s) (trace s).

Definition set_rxBuffer (f : list Z → list Z) (s : State) : State :=
  mkState (digitStates s) (f (rxBuffer s)) (pins s) (lastUpdateTime s) (trace s).

Definition set_pins (f : gmap Z bool → gmap Z bool) (s : State) : State :=
  mkState (digitStates s) (rxBuffer s) (f (pins s)) (lastUpdateTime s) (trace s).

Definition set_lastUpdateTime (f : Z → Z) (s : State) : State :=
  mkState (digitStates s) (rxBuffer s) (pins s) (f (lastUpdateTime s)) (trace s).

Definition set_trace (f : list event → list event) (s : State) : State :=
  mkState (digitStates s) (rxBuffer s) (pins s) (lastUpdateTime s) (f (trace s)).

(** The state at power-on: the initialiser of [digitStates], nothing
    received, no pin driven yet, [lastUpdateTime = 0]. *)
Definition initial_state : State :=
  mkState [64; 64; 64; 64; 64; 64] [] ∅ 0 [].

(** ** The monad: state passing with faults *)

Inductive outcome (A : Type) :=
  | Done (a : A) (s : State)
  | Crash (e : error).
Arguments Done {A} a s.
Arguments Crash {A} e.

Definition M (A : Type) : Type := State → outcome A.

Definition ret {A} (a : A) : M A := λ s, Done a s.

Definition bind {A B} (m : M A) (f : A → M B) : M B :=
  λ s, match m s with
       | Done a s' => f a s'
       | Crash e => Crash e
       end.

Notation "x <- m ;; k" := (bind m (λ x, k))
  (at level 100, m at next level, right associativity, only parsing).
Notation "m ;;; k" := (bind m (λ _, k))
  (at level 100, right associativity, only parsing).

Definition get : M State := λ s, Done s s.

Definition modify (f : State → State) : M unit := λ s, Done () (f s).

Definition throw {A} (e : error) : M A := λ _, Crash e.

Definition emit (e : event) : M unit := modify (set_trace (λ t, t ++ [e])).

(** [for (int i = lo; i < hi; i++) body], for a body that leaves [i] alone. *)
Fixpoint for_ (n : nat) (i : Z) (body : Z → M unit) : M unit :=
  match n with
  | O => ret ()
  | S n' => body i ;;; for_ n' (i + 1) body
  end.

Definition for_loop (lo hi : Z) (body : Z → M unit) : M unit :=
  for_ (Z.to_nat (hi - lo)) lo body.

(** [while (cond) body]; the fuel bounds the number of iterations. *)
Fixpoint while_ (fuel : nat) (cond : M bool) (body : M unit) : M unit :=
  match fuel with
  | O => throw OutOfFuel
  | S fuel' =>
      c <- cond ;;
      if c then body ;;; while_ fuel' cond body else ret ()
  end.

(** ** C arrays *)

(** [arr[i]] as an rvalue: a fault outside the array. *)
Definition index {A} (t : table) (arr : list A) (i : Z) : M A :=
  emit (EvIndex t i) ;;;
  if bool_decide (0 ≤ i) then
    match arr !! Z.to_nat i with
    | Some x => ret x
    | None => throw (OutOfBounds t i)
    end
  else throw (OutOfBounds t i).

(** [digitStates[i]] read. *)
Definition digitStates_get (i : Z) : M Z :=
  s <- get ;; index TDigitStates (digitStates s) i.

(** [digitStates[i] = v]. *)
Definition digitStates_put (i v : Z) : M unit :=
  s <- get ;;
  _ <- index TDigitStates (digitStates s) i ;;
  modify (set_digitStates (λ ds, <[Z.to_nat i := v]> ds)).

(** ** Arduino and Wire primitives *)

Definition pinMode_OUTPUT (pin : Z) : M unit := emit (EvPinMode pin).

Definition digitalWrite (pin : Z) (val : bool) : M unit :=
  modify (set_pins (λ p, <[pin := val]> p)) ;;;
  emit (EvDigitalWrite pin val).

Definition delayMicroseconds (us : Z) : M unit := emit (EvDelayMicroseconds us).

(** [millis()] when [now] milliseconds have passed since power-on. *)
Definition millis (now : Z) : Z := to_ulong now.

(** [Wire.available()]: the number of bytes left in the receive buffer. *)
Definition Wire_available : M Z :=
  s <- get ;; ret (Z.of_nat (length (rxBuffer s))).

(** [Wire.read()]: the next byte, or -1 when the buffer is empty. *)
Definition Wire_read : M Z :=
  s <- get ;;
  match rxBuffer s with
  | [] => ret (-1)
  | b :: rest => modify (set_rxBuffer (λ _, rest)) ;;; ret b
  end.

(** The bus hands a transaction to the device: the receive buffer is
    replaced by the bytes of the transaction. *)
Definition deliver (bytes : list Z) (s : State) : State :=
  set_rxBuffer (λ _, bytes) s.

(** ** The update receiver *)

Definition receiveEvent (fuel : nat) (numBytes : Z) : M unit :=
  while_ fuel (n <- Wire_available ;; ret (1 <? n))
    (r1 <- Wire_read ;;
     let digitIndex := to_byte r1 in
     r2 <- Wire_read ;;
     let segmentStates := to_byte r2 in
     if digitIndex <? 6 then digitStates_put digitIndex segmentStates
     else ret ()).

(** ** The scan driver *)

Definition updateDisplay (anode : bool) (digit : Z) : M unit :=
  for_loop 0 NUM_DIGITS (λ i,
    pin <- index TCommonPins commonPins i ;;
    digitalWrite pin anode) ;;;
  (pin <- index TCommonPins commonPins digit ;;
   digitalWrite pin (negb anode)) ;;;
  for_loop 0 8 (λ seg,
    v <- digitStates_get digit ;;
    let segmentOn := negb (Z.land v (Z.shiftl 1 seg) =? 0) in
    pin <- index TSegmentPins segmentPins seg ;;
    digitalWrite pin (if anode then negb segmentOn else segmentOn)).

(** The pin part of [setup]; the bus initialisation that follows it
    (address, clock, handler registration) touches nothing of [State]. *)
Definition setup (anode : bool) : M unit :=
  for_loop 0 NUM_DIGITS (λ i,
    pin <- index TCommonPins commonPins i ;;
    pinMode_OUTPUT pin ;;;
    pin' <- index TCommonPins commonPins i ;;
    digitalWrite pin' (negb anode)) ;;;
  for_loop 0 8 (λ i,
    pin <- index TSegmentPins segmentPins i ;;
    pinMode_OUTPUT pin ;;;
    pin' <- index TSegmentPins segmentPins i ;;
    digitalWrite pin' anode).

(** One pass of [loop].  [t_check] and [t_done] are the times, in
    milliseconds since power-on, at which the two calls of [millis()] are
    made. *)
Definition loop (anode : bool) (t_check t_done : Z) : M unit :=
  s <- get ;;
  if 2 <? to_ulong (millis t_check - lastUpdateTime s) then
    for_loop 0 NUM_DIGITS (λ digit,
      updateDisplay anode digit ;;;
      delayMicroseconds 2) ;;;
    modify (set_lastUpdateTime (λ _, millis t_done))
  else ret ().

(** ** Observations and reference functions used by the properties *)

(** [read(index)] of the digit state store. *)
Definition read (s : State) (i : Z) : option Z :=
  if bool_decide (0 ≤ i) then digitStates s !! Z.to_nat i else None.

(** [write(index, pattern)] of the digit state store as the specification
    words it: a store update for an index in range, nothing otherwise. *)
Definition write (ds : list Z) (u : Z * Z) : list Z :=
  if bool_decide (0 ≤ u.1 < NUM_DIGITS) then <[Z.to_nat u.1 := u.2]> ds else ds.

(** The (index, pattern) pairs of a byte sequence, in arrival order. *)
Fixpoint pairs (bytes : list Z) : list (Z * Z) :=
  match bytes with
  | a :: b :: rest => (to_byte a, to_byte b) :: pairs rest
  | _ => []
  end.

(** What is left of a byte sequence once its pairs are taken. *)
Fixpoint leftover (bytes : list Z) : list Z :=
  match bytes with
  | _ :: _ :: rest => leftover rest
  | l => l
  end.

(** The effect of events on the pin levels. *)
Definition apply_event (p : gmap Z bool) (e : event) : gmap Z bool :=
  match e with
  | EvDigitalWrite pin level => <[pin := level]> p
  | _ => p
  end.

Definition replay (evs : list event) (p : gmap Z bool) : gmap Z bool :=
  foldl apply_event p evs.

(** The state after the events [evs] have happened. *)
Definition play (evs : list event) (s : State) : State :=
  mkState (digitStates s) (rxBuffer s) (replay evs (pins s))
          (lastUpdateTime s) (trace s ++ evs).

(** The last level written to [pin] by [evs], if any. *)
Fixpoint last_write (pin : Z) (evs : list event) : option bool :=
  match evs with
  | [] => None
  | e :: evs' =>
      match last_write pin evs' with
      | Some l => Some l
      | None =>
          match e with
          | EvDigitalWrite pin' l => if bool_decide (pin' = pin) then Some l else None
          | _ => None
          end
      end
  end.

(** The store accesses made by the receiver for a byte sequence. *)
Definition receive_events (bytes : list Z) : list event :=
  flat_map (λ u : Z * Z,
    if bool_decide (0 ≤ u.1 < NUM_DIGITS) then [EvIndex TDigitStates u.1] else [])
    (pairs bytes).

(** [tbl[i]] for an index known to be in range. *)
Definition elt (tbl : list Z) (i : Z) : Z := default 0 (tbl !! Z.to_nat i).

(** Physical level of a line that is logically on or off: the logical
    value itself for common cathode, its inversion for common anode. *)
Definition drive (anode on : bool) : bool := if anode then negb on else on.

(** The events of [updateDisplay digit] on the store [ds]: all commons
    off, the common of [digit] on, the eight segment lines. *)
Definition commons_off_events (anode : bool) : list event :=
  flat_map (λ i, [EvIndex TCommonPins i;
                  EvDigitalWrite (elt commonPins i) (drive anode false)])
           (seqZ 0 NUM_DIGITS).

Definition activate_events (anode : bool) (digit : Z) : list event :=
  [EvIndex TCommonPins digit;
   EvDigitalWrite (elt commonPins digit) (drive anode true)].

Definition segment_events (anode : bool) (ds : list Z) (digit : Z) : list event :=
  flat_map (λ seg, [EvIndex TDigitStates digit;
                    EvIndex TSegmentPins seg;
                    EvDigitalWrite (elt segmentPins seg)
                      (drive anode (Z.testbit (elt ds digit) seg))])
           (seqZ 0 8).

Definition updateDisplay_events (anode : bool) (ds : list Z) (digit : Z) : list event :=
  commons_off_events anode ++ activate_events anode digit
  ++ segment_events anode ds digit.

(** The events of one refresh cycle. *)
Definition cycle_events (anode : bool) (ds : list Z) : list event :=
  flat_map (λ d, updateDisplay_events anode ds d ++ [EvDelayMicroseconds 2])
           (seqZ 0 NUM_DIGITS).

(** The events of [setup]. *)
Definition setup_events (anode : bool) : list event :=
  flat_map (λ i, [EvIndex TCommonPins i; EvPinMode (elt commonPins i);
                  EvIndex TCommonPins i;
                  EvDigitalWrite (elt commonPins i) (drive anode true)])
           (seqZ 0 NUM_DIGITS)
  ++ flat_map (λ i, [EvIndex TSegmentPins i; EvPinMode (elt segmentPins i);
                     EvIndex TSegmentPins i;
                     EvDigitalWrite (elt segmentPins i) (drive anode false)])
              (seqZ 0 8).

(** [m], run from [s], returns [a] and its whole effect is the events [evs]. *)
Definition emits {A} (m : M A) (s : State) (a : A) (evs : list event) : Prop :=
  m s = Done a (play evs s).

Definition table_size (t : table) : Z :=
  match t with
  | TDigitStates => 6
  | TCommonPins => NUM_DIGITS
  | TSegmentPins => 8
  end.

Definition index_in_range (e : event) : Prop :=
  match e with
  | EvIndex t i => 0 ≤ i < table_size t
  | _ => True
  end.

(** The digit commons that are at the activation level. *)
Definition active_commons (anode : bool) (p : gmap Z bool) : list Z :=
  filter (λ pin, p !! pin = Some (drive anode true)) commonPins.

Definition num_active (anode : bool) (p : gmap Z bool) : nat :=
  length (active_commons anode p).

(** At every instant of the events [evs], started with the pins at [p], at
    most one digit common is active. *)
Definition one_active_throughout (anode : bool) (evs : list event)
    (p : gmap Z bool) : Prop :=
  ∀ pre, pre `prefix_of` evs → (num_active anode (replay pre p) ≤ 1)%nat.

(** Events that cannot raise the number of active commons: anything but a
    write, a write of the "off" level, a write to a pin that is no common. *)
Definition lowers (anode : bool) (e : event) : Prop :=
  match e with
  | EvDigitalWrite pin level => level = drive anode false ∨ pin ∉ commonPins
  | _ => True
  end.

(** The test of [loop]: is a refresh cycle started at time [now]? *)
Definition refresh_due (now : Z) (s : State) : bool :=
  2 <? to_ulong (millis now - lastUpdateTime s).

(** States the device can be in between handler and loop invocations. *)
Inductive reachable (anode : bool) : State → Prop :=
  | reachable_setup s :
      setup anode initial_state = Done () s → reachable anode s
  | reachable_receive s fuel numBytes bytes s' :
      reachable anode s →
      receiveEvent fuel numBytes (deliver bytes s) = Done () s' →
      reachable anode s'
  | reachable_loop s t_check t_done s' :
      reachable anode s →
      loop anode t_check t_done s = Done () s' →
      reachable anode s'.

(** ** Further observations *)

(** The pattern of the last pair of [us] that addresses digit [i], if any. *)
Fixpoint last_update (i : Z) (us : list (Z * Z)) : option Z :=
  match us with
  | [] => None
  | u :: us' =>
      match last_update i us' with
      | Some p => Some p
      | None => if bool_decide (u.1 = i) then Some u.2 else None
      end
  end.

(** The pins written by events, in order, and the pins put in output mode. *)
Definition written_pins (evs : list event) : list Z :=
  omap (λ e, match e with EvDigitalWrite pin _ => Some pin | _ => None end) evs.

Definition configured_pins (evs : list event) : list Z :=
  omap (λ e, match e with EvPinMode pin => Some pin | _ => None end) evs.


(** The busy waits of events, in microseconds. *)
Definition delays (evs : list event) : list Z :=
  omap (λ e, match e with EvDelayMicroseconds us => Some us | _ => None end) evs.

(** Every [digitalWrite] of a trace comes after a [pinMode(pin, OUTPUT)] of
    the same pin. *)
Definition configured_before_write (evs : list event) : Prop :=
  ∀ k pin level, evs !! k = Some (EvDigitalWrite pin level) →
    ∃ k', (k' < k)%nat ∧ evs !! k' = Some (EvPinMode pin).

(** The same as a check, given the pins [conf] already in output mode. *)
Fixpoint writes_configured (conf : list Z) (evs : list event) : bool :=
  match evs with
  | [] => true
  | EvPinMode pin :: evs' => writes_configured (pin :: conf) evs'
  | EvDigitalWrite pin _ :: evs' =>
      bool_decide (pin ∈ conf) && writes_configured conf evs'
  | _ :: evs' => writes_configured conf evs'
  end.

(** The events of a refresh cycle up to the busy wait of digit [d], up to
    the switching on of its common, and after its busy wait. *)
Definition cycle_until_dwell (anode : bool) (ds : list Z) (d : Z) : list event :=
  flat_map (λ d', updateDisplay_events anode ds d' ++ [EvDelayMicroseconds 2])
           (seqZ 0 d)
  ++ updateDisplay_events anode ds d.

Definition cycle_until_on (anode : bool) (ds : list Z) (d : Z) : list event :=
  flat_map (λ d', updateDisplay_events anode ds d' ++ [EvDelayMicroseconds 2])
           (seqZ 0 d)
  ++ commons_off_events anode ++ activate_events anode d.

Definition cycle_after_dwell (anode : bool) (ds : list Z) (d : Z) : list event :=
  flat_map (λ d', updateDisplay_events anode ds d' ++ [EvDelayMicroseconds 2])
           (seqZ (d + 1) (NUM_DIGITS - (d + 1))).

(** ** The monad's equations *)

Ltac simpl_state :=
  cbn [deliver play set_digitStates set_rxBuffer set_pins set_lastUpdateTime
       set_trace digitStates rxBuffer pins lastUpdateTime trace] in *.

Lemma bind_Done {A B} (m : M A) (f : A → M B) s a s' :
  m s = Done a s' → bind m f s = f a s'.
Proof. unfold bind. by intros ->. Qed.

Lemma byte_range x : 0 ≤ to_byte x < 256.
Proof. unfold to_byte. apply Z.mod_pos_bound. lia. Qed.

Lemma to_byte_id x : 0 ≤ x < 256 → to_byte x = x.
Proof. unfold to_byte. intros. by apply Z.mod_small. Qed.

(** ** The update receiver *)

Lemma length_write ds u : length (write ds u) = length ds.
Proof. unfold write. case_bool_decide; [apply length_insert | done]. Qed.

Lemma length_foldl_write us ds : length (foldl write ds us) = length ds.
Proof.
  revert ds. induction us as [|u us IH]; intros ds; simpl; [done|].
  by rewrite IH, length_write.
Qed.

Lemma half_SS n : (S (S n) / 2 = S (n / 2))%nat.
Proof.
  replace (S (S n)) with (n + 1 * 2)%nat by lia.
  rewrite Nat.div_add by lia. lia.
Qed.

Lemma while_step fuel cond body s c s' :
  cond s = Done c s' →
  while_ (S fuel) cond body s =
    if c then bind body (λ _, while_ fuel cond body) s' else Done () s'.
Proof. intros H. simpl. rewrite (bind_Done _ _ _ _ _ H). by destruct c. Qed.

(** The loop body on a buffer that holds a pair. *)
Lemma receive_pair_run ds a b rest p lut tr :
  length ds = 6%nat →
  (r1 <- Wire_read ;;
   let digitIndex := to_byte r1 in
   r2 <- Wire_read ;;
   let segmentStates := to_byte r2 in
   if digitIndex <? 6 then digitStates_put digitIndex segmentStates
   else ret ()) (mkState ds (a :: b :: rest) p lut tr) =
  Done () (mkState (write ds (to_byte a, to_byte b)) rest p lut
             (tr ++ (if bool_decide (0 ≤ to_byte a < NUM_DIGITS)
                     then [EvIndex TDigitStates (to_byte a)] else []))).
Proof.
  intros Hlen. pose proof (byte_range a) as Ha.
  unfold bind, Wire_read, get, modify, ret, write; simpl.
  destruct (Z.ltb_spec (to_byte a) 6) as [Hlt|Hge].
  - rewrite !bool_decide_true by (unfold NUM_DIGITS; lia).
    unfold digitStates_put, index, emit, bind, get, modify, ret; simpl.
    rewrite bool_decide_true by lia.
    destruct (lookup_lt_is_Some_2 ds (Z.to_nat (to_byte a))) as [x Hx]; [lia|].
    by rewrite Hx.
  - rewrite !bool_decide_false by (unfold NUM_DIGITS; lia).
    by rewrite app_nil_r.
Qed.

(** One run of the receiver on a buffer of at most [2 * fuel - 1] bytes:
    the pairs are written in order and the odd byte stays in the buffer. *)
Lemma receiveEvent_run fuel numBytes s :
  length (digitStates s) = 6%nat →
  (length (rxBuffer s) / 2 < fuel)%nat →
  receiveEvent fuel numBytes s =
    Done () (mkState (foldl write (digitStates s) (pairs (rxBuffer s)))
                     (leftover (rxBuffer s))
                     (pins s) (lastUpdateTime s)
                     (trace s ++ receive_events (rxBuffer s))).
Proof.
  unfold receiveEvent.
  revert s. induction fuel as [|fuel IH]; intros [ds rx p lut tr];
    cbn [digitStates rxBuffer pins lastUpdateTime trace];
    intros Hlen Hfuel; [lia|].
  erewrite while_step by reflexivity.
  cbn [digitStates rxBuffer pins lastUpdateTime trace].
  destruct rx as [|a [|b rest]].
  - simpl. by rewrite app_nil_r.
  - simpl. by rewrite app_nil_r.
  - replace (1 <? Z.of_nat (length (a :: b :: rest))) with true
      by (symmetry; apply Z.ltb_lt; simpl length; lia).
    erewrite bind_Done by (by apply receive_pair_run).
    rewrite IH; cbn [digitStates rxBuffer pins lastUpdateTime trace].
    + unfold receive_events. simpl. by rewrite <- app_assoc.
    + by rewrite length_write.
    + simpl length in Hfuel. rewrite half_SS in Hfuel. lia.
Qed.

(** Induction on a byte sequence two bytes at a time. *)
Lemma pair_ind (P : list Z → Prop) :
  P [] → (∀ a, P [a]) → (∀ a b l, P l → P (a :: b :: l)) → ∀ l, P l.
Proof.
  intros Hnil Hone Hstep l.
  cut (P l ∧ ∀ a, P (a :: l)); [tauto|].
  induction l as [|b l [IH1 IH2]]; split; auto.
Qed.

Lemma length_pairs bytes : length (pairs bytes) = (length bytes / 2)%nat.
Proof.
  induction bytes as [| |a b l IH] using pair_ind; [done..|].
  simpl length. by rewrite half_SS, IH.
Qed.

Lemma leftover_drop bytes :
  leftover bytes = drop (2 * (length bytes / 2)) bytes.
Proof.
  induction bytes as [| |a b l IH] using pair_ind; [done..|].
  simpl length. rewrite half_SS.
  replace (2 * S (length l / 2))%nat with (S (S (2 * (length l / 2)))) by lia.
  simpl. apply IH.
Qed.

Lemma pairs_flatten bytes :
  flat_map (λ u : Z * Z, [u.1; u.2]) (pairs bytes) =
  to_byte <$> take (2 * (length bytes / 2)) bytes.
Proof.
  induction bytes as [| |a b l IH] using pair_ind; [done..|].
  simpl length. rewrite half_SS.
  replace (2 * S (length l / 2))%nat with (S (S (2 * (length l / 2)))) by lia.
  simpl. by rewrite IH.
Qed.

Lemma pairs_dangling bytes b :
  Nat.Even (length bytes) → pairs (bytes ++ [b]) = pairs bytes.
Proof.
  induction bytes as [|a|a c l IH] using pair_ind; intros Hev; [done| |].
  - destruct Hev as [k Hk]. simpl in Hk. lia.
  - simpl. f_equal. apply IH.
    destruct Hev as [k Hk]. simpl in Hk. exists (k - 1)%nat. lia.
Qed.

Lemma half_dangling (n : nat) : Nat.Even n → ((n + 1) / 2 = n / 2)%nat.
Proof.
  intros [k ->].
  rewrite (Nat.mul_comm 2 k), Nat.div_mul by lia.
  rewrite Nat.div_add_l by lia. by rewrite Nat.add_0_r.
Qed.

Lemma write_in_range ds i p :
  0 ≤ i < NUM_DIGITS → write ds (i, p) = <[Z.to_nat i := p]> ds.
Proof. intros. unfold write. simpl. by rewrite bool_decide_true. Qed.

Lemma write_out_of_range ds i p :
  ¬ (0 ≤ i < NUM_DIGITS) → write ds (i, p) = ds.
Proof. intros. unfold write. simpl. by rewrite bool_decide_false. Qed.

Lemma write_write ds u : write (write ds u) u = write ds u.
Proof.
  unfold write. case_bool_decide; [|done]. apply list_insert_insert_eq.
Qed.

(** C1.  For a digit index [i] in [0, 6) and an 8-bit pattern [p], the
    receiver handed the pair [(i, p)] finishes, afterwards [read i] is [p],
    and [read j] is what it was for every other [j]. *)
Theorem receive_pair_stores fuel numBytes s i p :
  length (digitStates s) = 6%nat →
  (1 < fuel)%nat →
  0 ≤ i < NUM_DIGITS →
  0 ≤ p < 256 →
  ∃ s', receiveEvent fuel numBytes (deliver [i; p] s) = Done () s' ∧
        read s' i = Some p ∧
        ∀ j, j ≠ i → read s' j = read s j.
Proof.
  intros Hlen Hfuel Hi Hp. unfold NUM_DIGITS in Hi.
  eexists. split; [apply receiveEvent_run; simpl; [done | lia]|].
  unfold read; simpl.
  rewrite !to_byte_id by lia.
  rewrite write_in_range by done.
  split.
  - rewrite bool_decide_true by lia.
    apply list_lookup_insert_eq. lia.
  - intros j Hj. case_bool_decide; [|done].
    apply list_lookup_insert_ne. lia.
Qed.

Lemma receive_pair_stores_witness :
  ∃ s', receiveEvent 2 2 (deliver [2; 102] initial_state) = Done () s' ∧
        read s' 2 = Some 102 ∧
        ∀ j, j ≠ 2 → read s' j = read initial_state j.
Proof.
  apply (receive_pair_stores 2 2 initial_state 2 102);
    [reflexivity | lia | unfold NUM_DIGITS; lia | lia].
Defined.

(** The scenario of the specification: two updates in one transaction. *)
Example receive_two_pairs :
  ∃ s', receiveEvent 3 4 (deliver [0; 63; 1; 6] initial_state) = Done () s' ∧
        read s' 0 = Some 63 ∧ read s' 1 = Some 6 ∧
        digitStates s' = [63; 6; 64; 64; 64; 64].
Proof. eexists. split; [reflexivity|]. by vm_compute. Qed.

(** C2.  For every byte sequence, of even or odd length, the receiver
    finishes; it has written exactly the [length / 2] pairs of the sequence,
    in arrival order, the pairs being the consecutive two-byte groups of the
    sequence; the unpaired last byte of an odd sequence stays in the buffer
    and changes nothing in the store. *)
Theorem receive_applies_pairs fuel numBytes s bytes :
  length (digitStates s) = 6%nat →
  (length bytes / 2 < fuel)%nat →
  ∃ s', receiveEvent fuel numBytes (deliver bytes s) = Done () s' ∧
        digitStates s' = foldl write (digitStates s) (pairs bytes) ∧
        length (pairs bytes) = (length bytes / 2)%nat ∧
        flat_map (λ u : Z * Z, [u.1; u.2]) (pairs bytes) =
          to_byte <$> take (2 * (length bytes / 2)) bytes ∧
        rxBuffer s' = drop (2 * (length bytes / 2)) bytes ∧
        ∀ b, Nat.Even (length bytes) →
          ∃ s'', receiveEvent fuel numBytes (deliver (bytes ++ [b]) s) = Done () s'' ∧
                 digitStates s'' = digitStates s' ∧
                 rxBuffer s'' = [b].
Proof.
  intros Hlen Hfuel.
  eexists. split; [apply receiveEvent_run; simpl; done|]. simpl.
  split; [done|]. split; [apply length_pairs|].
  split; [apply pairs_flatten|]. split; [apply leftover_drop|].
  intros b Hev.
  eexists. split.
  - apply receiveEvent_run; simpl_state; [done|].
    rewrite length_app. simpl length. by rewrite half_dangling.
  - simpl. split; [by rewrite pairs_dangling|].
    rewrite leftover_drop, length_app. simpl length.
    rewrite half_dangling by done.
    destruct Hev as [k Hk].
    rewrite Hk, (Nat.mul_comm 2 k), Nat.div_mul by lia.
    rewrite drop_app_length'; [done | lia].
Qed.

Lemma receive_applies_pairs_witness :
  ∃ s', receiveEvent 2 2 (deliver [2; 102] initial_state) = Done () s' ∧
        digitStates s' = foldl write (digitStates initial_state) (pairs [2; 102]) ∧
        length (pairs [2; 102]) = (length [2; 102] / 2)%nat ∧
        flat_map (λ u : Z * Z, [u.1; u.2]) (pairs [2; 102]) =
          to_byte <$> take (2 * (length [2; 102] / 2)) [2; 102] ∧
        rxBuffer s' = drop (2 * (length [2; 102] / 2)) [2; 102] ∧
        ∀ b, Nat.Even (length [2; 102]) →
          ∃ s'', receiveEvent 2 2 (deliver ([2; 102] ++ [b]) initial_state) = Done () s'' ∧
                 digitStates s'' = digitStates s' ∧
                 rxBuffer s'' = [b].
Proof.
  apply (receive_applies_pairs 2 2 initial_state [2; 102]);
    [reflexivity | simpl; lia].
Defined.

(** The loop body on a pair whose index byte is not below 6. *)
Lemma receive_pair_skip s a b rest :
  rxBuffer s = a :: b :: rest →
  6 ≤ to_byte a →
  (r1 <- Wire_read ;;
   let digitIndex := to_byte r1 in
   r2 <- Wire_read ;;
   let segmentStates := to_byte r2 in
   if digitIndex <? 6 then digitStates_put digitIndex segmentStates
   else ret ()) s = Done () (set_rxBuffer (λ _, rest) s).
Proof.
  destruct s as [ds rx p lut tr]. simpl. intros -> Ha.
  unfold bind, Wire_read, get, modify, ret; simpl.
  by replace (to_byte a <? 6) with false by (symmetry; apply Z.ltb_ge; lia).
Qed.

(** C3.  An update pair whose index byte is outside [[0, 6)] is dropped:
    the receiver finishes without a fault and the digit state store is the
    one it started from, whatever the pattern byte.  The instance below is
    the pair [[7, 0xFF]]. *)
Theorem receive_out_of_range_ignored fuel numBytes s i p :
  (1 < fuel)%nat →
  NUM_DIGITS ≤ i < 256 →
  ∃ s', receiveEvent fuel numBytes (deliver [i; p] s) = Done () s' ∧
        digitStates s' = digitStates s ∧
        ∀ j, read s' j = read s j.
Proof.
  intros Hfuel Hi. unfold NUM_DIGITS in Hi.
  destruct fuel as [|[|fuel]]; [lia..|].
  unfold receiveEvent.
  erewrite while_step by reflexivity. simpl_state.
  replace (1 <? Z.of_nat (length [i; p])) with true by done.
  erewrite bind_Done; last first.
  { apply receive_pair_skip with (a := i) (b := p) (rest := []); [done|].
    rewrite to_byte_id; lia. }
  erewrite while_step by reflexivity. simpl_state.
  replace (1 <? Z.of_nat (@length Z [])) with false by done.
  eexists. split; [done|]. by destruct s.
Qed.

Lemma receive_out_of_range_ignored_witness :
  ∃ s', receiveEvent 2 2 (deliver [7; 255] initial_state) = Done () s' ∧
        digitStates s' = digitStates initial_state ∧
        ∀ j, read s' j = read initial_state j.
Proof.
  apply (receive_out_of_range_ignored 2 2 initial_state 7 255);
    [lia | unfold NUM_DIGITS; lia].
Defined.

(** C7.  Applying the update pair [(i, p)] a second time, in a transaction
    of its own or in the same transaction, leaves the store as the first
    application left it, for every index and pattern byte. *)
Theorem receive_idempotent fuel numBytes s i p :
  length (digitStates s) = 6%nat →
  (2 < fuel)%nat →
  ∃ s1 s2 s12,
    receiveEvent fuel numBytes (deliver [i; p] s) = Done () s1 ∧
    receiveEvent fuel numBytes (deliver [i; p] s1) = Done () s2 ∧
    receiveEvent fuel numBytes (deliver [i; p; i; p] s) = Done () s12 ∧
    digitStates s2 = digitStates s1 ∧
    digitStates s12 = digitStates s1.
Proof.
  intros Hlen Hfuel.
  eexists _, _, _. split; [apply receiveEvent_run; simpl_state; [done | simpl; lia]|].
  split; [apply receiveEvent_run; simpl_state; [|simpl; lia]|].
  { simpl. by rewrite length_write. }
  split; [apply receiveEvent_run; simpl_state; [done | simpl; lia]|].
  simpl. by rewrite !write_write.
Qed.

Lemma receive_idempotent_witness :
  ∃ s1 s2 s12,
    receiveEvent 3 2 (deliver [1; 6] initial_state) = Done () s1 ∧
    receiveEvent 3 2 (deliver [1; 6] s1) = Done () s2 ∧
    receiveEvent 3 2 (deliver [1; 6; 1; 6] initial_state) = Done () s12 ∧
    digitStates s2 = digitStates s1 ∧
    digitStates s12 = digitStates s1.
Proof.
  apply (receive_idempotent 3 2 initial_state 1 6); [reflexivity | lia].
Defined.

(** C10.  The byte-count argument is never consulted: two runs of the
    receiver from the same state (same store, same bytes available) finish
    in the same state whatever value each was given for [numBytes]. *)
Theorem receive_ignores_numBytes fuel1 fuel2 numBytes1 numBytes2 s :
  length (digitStates s) = 6%nat →
  (length (rxBuffer s) / 2 < fuel1)%nat →
  (length (rxBuffer s) / 2 < fuel2)%nat →
  ∃ s', receiveEvent fuel1 numBytes1 s = Done () s' ∧
        receiveEvent fuel2 numBytes2 s = Done () s'.
Proof.
  intros Hlen Hfuel1 Hfuel2.
  eexists. split; by apply receiveEvent_run.
Qed.

Lemma receive_ignores_numBytes_witness :
  ∃ s', receiveEvent 2 2 (deliver [0; 63] initial_state) = Done () s' ∧
        receiveEvent 5 32 (deliver [0; 63] initial_state) = Done () s'.
Proof.
  apply (receive_ignores_numBytes 2 5 2 32 (deliver [0; 63] initial_state));
    [reflexivity | simpl; lia | simpl; lia].
Defined.

(** ** Programs as event emitters *)

Lemma play_nil s : play [] s = s.
Proof. destruct s. unfold play; simpl. by rewrite app_nil_r. Qed.

Lemma replay_app e1 e2 p : replay (e1 ++ e2) p = replay e2 (replay e1 p).
Proof. apply foldl_app. Qed.

Lemma play_app e1 e2 s : play (e1 ++ e2) s = play e2 (play e1 s).
Proof. unfold play; simpl. by rewrite replay_app, app_assoc. Qed.

Lemma emits_ret {A} (a : A) s : emits (ret a) s a [].
Proof. unfold emits, ret. by rewrite play_nil. Qed.

Lemma emits_bind {A B} (m : M A) (f : A → M B) s a b e1 e2 evs :
  emits m s a e1 →
  emits (f a) (play e1 s) b e2 →
  evs = e1 ++ e2 →
  emits (bind m f) s b evs.
Proof.
  unfold emits. intros H1 H2 ->.
  by rewrite (bind_Done _ _ _ _ _ H1), H2, play_app.
Qed.

Lemma emits_pinMode pin s : emits (pinMode_OUTPUT pin) s () [EvPinMode pin].
Proof. reflexivity. Qed.

Lemma emits_delayMicroseconds us s :
  emits (delayMicroseconds us) s () [EvDelayMicroseconds us].
Proof. reflexivity. Qed.

Lemma emits_digitalWrite pin level s :
  emits (digitalWrite pin level) s () [EvDigitalWrite pin level].
Proof. reflexivity. Qed.

Lemma emits_index {A} t (arr : list A) i x s :
  0 ≤ i → arr !! Z.to_nat i = Some x →
  emits (index t arr i) s x [EvIndex t i].
Proof.
  intros Hi Hx. unfold emits, index, bind, emit, modify; simpl.
  rewrite bool_decide_true by done. by rewrite Hx.
Qed.

Lemma elt_lookup tbl i :
  0 ≤ i < Z.of_nat (length tbl) → tbl !! Z.to_nat i = Some (elt tbl i).
Proof.
  intros Hi. unfold elt.
  destruct (lookup_lt_is_Some_2 tbl (Z.to_nat i)) as [x ->]; [lia | done].
Qed.

Lemma emits_digitStates_get d s :
  0 ≤ d < Z.of_nat (length (digitStates s)) →
  emits (digitStates_get d) s (elt (digitStates s) d) [EvIndex TDigitStates d].
Proof.
  intros Hd. unfold digitStates_get.
  eapply emits_bind with (e1 := []); [by apply emits_ret with (a := s) | | done].
  rewrite play_nil. apply emits_index; [lia | by apply elt_lookup].
Qed.

(** A [for] loop emits the events of its iterations, one after the other,
    when no iteration changes the store. *)
Lemma emits_for n i body (ev : Z → list event) s :
  (∀ k s', 0 ≤ k < Z.of_nat n → digitStates s' = digitStates s →
           emits (body (i + k)) s' () (ev (i + k))) →
  emits (for_ n i body) s () (flat_map ev (seqZ i (Z.of_nat n))).
Proof.
  revert i s. induction n as [|n IH]; intros i s Hbody.
  - apply emits_ret.
  - rewrite seqZ_cons by lia. simpl.
    eapply emits_bind; [| |done].
    + specialize (Hbody 0 s). rewrite Z.add_0_r in Hbody.
      apply Hbody; [lia | done].
    + replace (Z.pred (Z.of_nat (S n))) with (Z.of_nat n) by lia.
      apply IH. intros k s' Hk Hs'.
      replace (Z.succ i + k) with (i + (k + 1)) by lia.
      apply Hbody; [lia | done].
Qed.

Lemma emits_for_loop lo hi body (ev : Z → list event) s :
  lo ≤ hi →
  (∀ i s', lo ≤ i < hi → digitStates s' = digitStates s →
           emits (body i) s' () (ev i)) →
  emits (for_loop lo hi body) s () (flat_map ev (seqZ lo (hi - lo))).
Proof.
  intros Hle Hbody. unfold for_loop.
  replace (hi - lo) with (Z.of_nat (Z.to_nat (hi - lo))) at 2 by lia.
  apply emits_for. intros k s' Hk Hs'. apply Hbody; [lia | done].
Qed.

(** ** The scan driver *)

(** The test [v & (1 << seg)] is bit [seg] of [v]. *)
Lemma land_shiftl_testbit v seg :
  0 ≤ seg → negb (Z.land v (Z.shiftl 1 seg) =? 0) = Z.testbit v seg.
Proof.
  intros Hseg. rewrite Z.shiftl_1_l.
  destruct (Z.testbit v seg) eqn:Hbit.
  - apply negb_true_iff, Z.eqb_neq. intros H0.
    assert (Z.testbit (Z.land v (2 ^ seg)) seg = true) as Hs.
    { by rewrite Z.land_spec, Hbit, Z.pow2_bits_true. }
    rewrite H0, Z.bits_0 in Hs. done.
  - apply negb_false_iff, Z.eqb_eq, Z.bits_inj'. intros n Hn.
    rewrite Z.land_spec, Z.bits_0, Z.pow2_bits_eqb by done.
    destruct (Z.eqb_spec seg n) as [->|]; [by rewrite Hbit | apply andb_false_r].
Qed.

Lemma emits_updateDisplay anode d s :
  length (digitStates s) = 6%nat →
  0 ≤ d < NUM_DIGITS →
  emits (updateDisplay anode d) s () (updateDisplay_events anode (digitStates s) d).
Proof.
  intros Hlen Hd. unfold NUM_DIGITS in Hd.
  unfold updateDisplay, updateDisplay_events.
  eapply emits_bind; [| |done].
  { apply (emits_for_loop 0 NUM_DIGITS); [done|].
    intros i s' Hi _. unfold NUM_DIGITS in Hi.
    eapply emits_bind;
      [apply emits_index; [lia | apply elt_lookup; simpl; lia]
      |apply emits_digitalWrite |].
    by destruct anode. }
  eapply emits_bind; [| |done].
  { eapply emits_bind;
      [apply emits_index; [lia | apply elt_lookup; simpl; lia]
      |apply emits_digitalWrite |].
    by destruct anode. }
  apply (emits_for_loop 0 8); [done|].
  intros seg s' Hseg Hs'. simpl_state.
  eapply emits_bind; [apply emits_digitStates_get; rewrite Hs'; lia | |].
  { eapply emits_bind;
      [apply emits_index; [lia | apply elt_lookup; simpl; lia]
      |apply emits_digitalWrite | done]. }
  simpl. rewrite Hs', land_shiftl_testbit by lia. by destruct anode.
Qed.

Lemma emits_cycle anode s :
  length (digitStates s) = 6%nat →
  emits (for_loop 0 NUM_DIGITS (λ digit,
           updateDisplay anode digit ;;; delayMicroseconds 2))
        s () (cycle_events anode (digitStates s)).
Proof.
  intros Hlen. apply (emits_for_loop 0 NUM_DIGITS); [done|].
  intros d s' Hd Hs'.
  eapply emits_bind;
    [apply emits_updateDisplay; [by rewrite Hs' | done]
    |apply emits_delayMicroseconds | by rewrite Hs'].
Qed.

(** One pass of [loop]: a refresh cycle and a new [lastUpdateTime] when the
    refresh is due, nothing at all otherwise. *)
Lemma loop_run anode t_check t_done s :
  length (digitStates s) = 6%nat →
  loop anode t_check t_done s =
    Done () (if refresh_due t_check s
             then set_lastUpdateTime (λ _, millis t_done)
                    (play (cycle_events anode (digitStates s)) s)
             else s).
Proof.
  intros Hlen. unfold loop, refresh_due.
  unfold bind at 1, get at 1.
  destruct (2 <? to_ulong (millis t_check - lastUpdateTime s)); [|done].
  by rewrite (bind_Done _ _ _ _ _ (emits_cycle anode s Hlen)).
Qed.

Lemma emits_setup anode s : emits (setup anode) s () (setup_events anode).
Proof.
  unfold setup, setup_events.
  eapply emits_bind; [| |done].
  - apply (emits_for_loop 0 NUM_DIGITS); [done|].
    intros i s' Hi _. unfold NUM_DIGITS in Hi.
    eapply emits_bind;
      [apply emits_index; [lia | apply elt_lookup; simpl; lia] | |done].
    eapply emits_bind; [apply emits_pinMode | |done].
    eapply emits_bind;
      [apply emits_index; [lia | apply elt_lookup; simpl; lia]
      |apply emits_digitalWrite |].
    by destruct anode.
  - apply (emits_for_loop 0 8); [done|].
    intros i s' Hi _.
    eapply emits_bind;
      [apply emits_index; [lia | apply elt_lookup; simpl; lia] | |done].
    eapply emits_bind; [apply emits_pinMode | |done].
    eapply emits_bind;
      [apply emits_index; [lia | apply elt_lookup; simpl; lia]
      |apply emits_digitalWrite |].
    by destruct anode.
Qed.

Lemma replay_lookup evs p pin :
  replay evs p !! pin =
    match last_write pin evs with
    | Some l => Some l
    | None => p !! pin
    end.
Proof.
  revert p. induction evs as [|e evs IH]; intros p; [done|].
  unfold replay in *. simpl. rewrite IH.
  destruct (last_write pin evs); [done|].
  destruct e as [| pin' l | |]; simpl; try done.
  rewrite lookup_insert. by case_decide; [rewrite bool_decide_true | rewrite bool_decide_false].
Qed.

Ltac cases_below i H :=
  match type of H with
  | 0 ≤ i < ?n =>
      let k := eval cbv in (Z.to_nat n) in
      let rec go m :=
        lazymatch m with
        | O => exfalso; lia
        | S ?m' =>
            let z := eval cbv in (Z.of_nat m') in
            destruct (decide (i = z)) as [->|]; [|go m']
        end
      in go k
  end.

Lemma updateDisplay_segment_write anode ds d seg :
  0 ≤ d < 6 → 0 ≤ seg < 8 →
  last_write (elt segmentPins seg) (updateDisplay_events anode ds d) =
    Some (drive anode (Z.testbit (elt ds d) seg)).
Proof.
  intros Hd Hseg. cases_below d Hd; cases_below seg Hseg; reflexivity.
Qed.

Lemma updateDisplay_common_write anode ds d i :
  0 ≤ d < 6 → 0 ≤ i < 6 →
  last_write (elt commonPins i) (updateDisplay_events anode ds d) =
    Some (drive anode (bool_decide (i = d))).
Proof.
  intros Hd Hi. cases_below d Hd; cases_below i Hi; reflexivity.
Qed.

(** C5.  [updateDisplay d] leaves every segment line [seg] at the level
    given by bit [seg] of the stored pattern [read d], inverted when the
    display is common anode and as it is when common cathode; by the same
    rule the common of digit [d] is left at the level for "on" and every
    other common at the level for "off". *)
Theorem updateDisplay_drives_pattern anode s d :
  length (digitStates s) = 6%nat →
  0 ≤ d < NUM_DIGITS →
  ∃ s' v,
    updateDisplay anode d s = Done () s' ∧
    read s d = Some v ∧
    (∀ seg, 0 ≤ seg < 8 →
       pins s' !! elt segmentPins seg =
         Some (if anode then negb (Z.testbit v seg) else Z.testbit v seg)) ∧
    pins s' !! elt commonPins d = Some (if anode then negb true else true) ∧
    (∀ i, 0 ≤ i < NUM_DIGITS → i ≠ d →
       pins s' !! elt commonPins i = Some (if anode then negb false else false)).
Proof.
  intros Hlen Hd. exists (play (updateDisplay_events anode (digitStates s) d) s).
  exists (elt (digitStates s) d). unfold NUM_DIGITS in *.
  split; [by apply emits_updateDisplay|].
  split.
  { unfold read. rewrite bool_decide_true by lia. apply elt_lookup. lia. }
  simpl_state. split; [|split].
  - intros seg Hseg. by rewrite replay_lookup, updateDisplay_segment_write.
  - rewrite replay_lookup, updateDisplay_common_write by done.
    by rewrite bool_decide_true.
  - intros i Hi Hne. rewrite replay_lookup, updateDisplay_common_write by done.
    by rewrite bool_decide_false.
Qed.

Lemma updateDisplay_drives_pattern_witness :
  ∃ s' v,
    updateDisplay true 2 initial_state = Done () s' ∧
    read initial_state 2 = Some v ∧
    (∀ seg, 0 ≤ seg < 8 →
       pins s' !! elt segmentPins seg = Some (negb (Z.testbit v seg))) ∧
    pins s' !! elt commonPins 2 = Some (negb true) ∧
    (∀ i, 0 ≤ i < NUM_DIGITS → i ≠ 2 →
       pins s' !! elt commonPins i = Some (negb false)).
Proof.
  apply (updateDisplay_drives_pattern true initial_state 2);
    [reflexivity | unfold NUM_DIGITS; lia].
Defined.

Lemma index_in_range_updateDisplay anode ds d :
  0 ≤ d < NUM_DIGITS → Forall index_in_range (updateDisplay_events anode ds d).
Proof.
  intros Hd.
  unfold updateDisplay_events, commons_off_events, activate_events,
    segment_events, NUM_DIGITS in *.
  rewrite !Forall_app. split; [|split].
  - apply Forall_flat_map, Forall_forall. intros i Hi%elem_of_seqZ.
    repeat constructor; simpl; unfold NUM_DIGITS; lia.
  - repeat constructor; simpl; unfold NUM_DIGITS; lia.
  - apply Forall_flat_map, Forall_forall. intros i Hi%elem_of_seqZ.
    repeat constructor; simpl; lia.
Qed.

Lemma index_in_range_cycle anode ds :
  Forall index_in_range (cycle_events anode ds).
Proof.
  unfold cycle_events.
  apply Forall_flat_map, Forall_forall. intros d Hd%elem_of_seqZ.
  rewrite Forall_app. split; [apply index_in_range_updateDisplay; lia|].
  by repeat constructor.
Qed.

(** C8.  A pass of [loop] never faults: it finishes, and every index with
    which it accesses [digitStates] or [commonPins] during the pass is in
    [[0, 6)] and every index into [segmentPins] is in [[0, 8)]. *)
Theorem scan_driver_indices_in_range anode t_check t_done s :
  length (digitStates s) = 6%nat →
  ∃ s' evs,
    loop anode t_check t_done s = Done () s' ∧
    trace s' = trace s ++ evs ∧
    evs = (if refresh_due t_check s
           then cycle_events anode (digitStates s) else []) ∧
    Forall index_in_range evs.
Proof.
  intros Hlen. rewrite loop_run by done.
  destruct (refresh_due t_check s).
  - eexists _, _. split; [done|]. split; [done|]. split; [done|].
    apply index_in_range_cycle.
  - exists s, []. by rewrite app_nil_r.
Qed.

Lemma scan_driver_indices_in_range_witness :
  ∃ s' evs,
    loop true 3 3 initial_state = Done () s' ∧
    trace s' = trace initial_state ++ evs ∧
    evs = (if refresh_due 3 initial_state
           then cycle_events true (digitStates initial_state) else []) ∧
    Forall index_in_range evs.
Proof.
  apply (scan_driver_indices_in_range true 3 3 initial_state); reflexivity.
Defined.

(** ** Timing of the refresh *)

Lemma ulong_diff a b : to_ulong (to_ulong a - to_ulong b) = to_ulong (a - b).
Proof. unfold to_ulong. symmetry. apply Zminus_mod. Qed.

(** With [lastUpdateTime] taken at time [t_last], a refresh that is due at a
    later time [now] comes more than 2 ms after [t_last]. *)
Lemma refresh_due_elapsed now t_last s :
  lastUpdateTime s = millis t_last →
  t_last ≤ now →
  refresh_due now s = true →
  2 < now - t_last.
Proof.
  unfold refresh_due, millis. intros -> Hle Hdue%Z.ltb_lt.
  rewrite ulong_diff in Hdue. unfold to_ulong in Hdue.
  destruct (Z_lt_le_dec 2 (now - t_last)) as [|Hsmall]; [done|].
  rewrite Z.mod_small in Hdue by lia. lia.
Qed.

Lemma refresh_due_after now t_last s :
  lastUpdateTime s = millis t_last →
  2 < now - t_last < 2 ^ 32 →
  refresh_due now s = true.
Proof.
  unfold refresh_due, millis. intros -> Hlt. apply Z.ltb_lt.
  rewrite ulong_diff. unfold to_ulong. rewrite Z.mod_small by lia. lia.
Qed.

(** C6.  A refresh cycle started at [t1] and finished at [t2] shows the six
    digits and records [t2]; from then on, as long as [lastUpdateTime] is
    what the cycle left, a pass of [loop] at a time [t3] does nothing unless
    more than 2 ms have passed since [t2], hence since the start [t1] of the
    cycle, and it does start the next cycle once they have. *)
Theorem refresh_waits_for_period anode s t1 t2 :
  length (digitStates s) = 6%nat →
  t1 ≤ t2 →
  refresh_due t1 s = true →
  ∃ s1,
    loop anode t1 t2 s = Done () s1 ∧
    trace s1 = trace s ++ cycle_events anode (digitStates s) ∧
    lastUpdateTime s1 = millis t2 ∧
    ∀ s2 t3 t4,
      length (digitStates s2) = 6%nat →
      lastUpdateTime s2 = lastUpdateTime s1 →
      t2 ≤ t3 →
      (refresh_due t3 s2 = true → 2 < t3 - t2 ∧ 2 < t3 - t1) ∧
      (t3 - t1 ≤ 2 → loop anode t3 t4 s2 = Done () s2) ∧
      (refresh_due t3 s2 = false → loop anode t3 t4 s2 = Done () s2) ∧
      (2 < t3 - t2 < 2 ^ 32 → refresh_due t3 s2 = true).
Proof.
  intros Hlen Ht Hdue. rewrite loop_run, Hdue by done.
  eexists. split; [done|]. simpl_state. split; [done|]. split; [done|].
  intros s2 t3 t4 Hlen2 Hlast Ht3.
  assert (refresh_due t3 s2 = true → 2 < t3 - t2) as Hwait.
  { by apply refresh_due_elapsed. }
  split; [intros H%Hwait; lia|].
  split; [|split].
  - intros Hearly. rewrite loop_run by done.
    destruct (refresh_due t3 s2); [|done]. specialize (Hwait eq_refl). lia.
  - intros Hnot. by rewrite loop_run, Hnot.
  - by apply refresh_due_after.
Qed.

Lemma refresh_waits_for_period_witness :
  ∃ s1,
    loop true 3 4 initial_state = Done () s1 ∧
    trace s1 = trace initial_state ++ cycle_events true (digitStates initial_state) ∧
    lastUpdateTime s1 = millis 4 ∧
    ∀ s2 t3 t4,
      length (digitStates s2) = 6%nat →
      lastUpdateTime s2 = lastUpdateTime s1 →
      4 ≤ t3 →
      (refresh_due t3 s2 = true → 2 < t3 - 4 ∧ 2 < t3 - 3) ∧
      (t3 - 3 ≤ 2 → loop true t3 t4 s2 = Done () s2) ∧
      (refresh_due t3 s2 = false → loop true t3 t4 s2 = Done () s2) ∧
      (2 < t3 - 4 < 2 ^ 32 → refresh_due t3 s2 = true).
Proof.
  apply (refresh_waits_for_period true initial_state 3 4);
    [reflexivity | lia | reflexivity].
Defined.

(** ** The store over the life of the device *)

Lemma receiveEvent_Done fuel numBytes s s' :
  length (digitStates s) = 6%nat →
  receiveEvent fuel numBytes s = Done () s' →
  s' = mkState (foldl write (digitStates s) (pairs (rxBuffer s)))
               (leftover (rxBuffer s)) (pins s) (lastUpdateTime s)
               (trace s ++ receive_events (rxBuffer s)).
Proof.
  intros Hlen Hrun.
  destruct (decide (length (rxBuffer s) / 2 < fuel)%nat) as [Hfuel|Hfuel].
  { rewrite receiveEvent_run in Hrun by done. by injection Hrun. }
  exfalso. revert s Hlen Hfuel Hrun. unfold receiveEvent.
  induction fuel as [|fuel IH]; intros [ds rx p lut tr]; simpl_state;
    intros Hlen Hfuel; [done|].
  erewrite while_step by reflexivity. simpl_state.
  destruct rx as [|a [|b rest]]; [simpl in Hfuel; lia..|].
  replace (1 <? Z.of_nat (length (a :: b :: rest))) with true
    by (symmetry; apply Z.ltb_lt; simpl length; lia).
  erewrite bind_Done by (by apply receive_pair_run).
  apply IH; simpl_state; [by rewrite length_write|].
  simpl length in Hfuel. rewrite half_SS in Hfuel. lia.
Qed.

Lemma reachable_store_length anode s :
  reachable anode s → length (digitStates s) = 6%nat.
Proof.
  induction 1 as [s Hs|s fuel n bytes s' _ IH Hs|s t1 t2 s' _ IH Hs].
  - rewrite (emits_setup anode initial_state) in Hs. by injection Hs as <-.
  - apply receiveEvent_Done in Hs; [|done]. subst s'. simpl_state.
    by rewrite length_foldl_write.
  - rewrite loop_run in Hs by done. injection Hs as <-.
    by destruct (refresh_due t1 s).
Qed.

(** C9.  The store starts as six copies of the pattern [0b01000000]: bit 6
    (segment G) is its only set bit, so the decimal-point bit 7 is clear;
    [setup] leaves it so; and in every state the device reaches each of the
    six slots holds a value. *)
Theorem store_default_pattern :
  digitStates initial_state = replicate 6 64 ∧
  64 = Z.shiftl 1 6 ∧
  (∀ b, 0 ≤ b → Z.testbit 64 b = bool_decide (b = 6)) ∧
  Z.testbit 64 7 = false ∧
  (∀ i, 0 ≤ i < NUM_DIGITS → read initial_state i = Some 64) ∧
  (∀ anode, ∃ s0, setup anode initial_state = Done () s0 ∧
                  ∀ i, 0 ≤ i < NUM_DIGITS → read s0 i = Some 64) ∧
  (∀ anode s i, reachable anode s → 0 ≤ i < NUM_DIGITS → is_Some (read s i)).
Proof.
  assert (∀ i, 0 ≤ i < NUM_DIGITS → read initial_state i = Some 64) as Hinit.
  { intros i Hi. unfold NUM_DIGITS in Hi. by cases_below i Hi. }
  split; [done|]. split; [done|]. split; [|split; [done|]].
  { intros b Hb. change 64 with (2 ^ 6). rewrite Z.pow2_bits_eqb by done.
    destruct (Z.eqb_spec 6 b) as [<-|]; [done|].
    by rewrite bool_decide_false. }
  split; [done|]. split.
  - intros anode. eexists. split; [apply emits_setup|]. apply Hinit.
  - intros anode s i Hs%reachable_store_length Hi. unfold NUM_DIGITS in Hi.
    unfold read. rewrite bool_decide_true by lia.
    apply lookup_lt_is_Some_2. lia.
Qed.

Lemma store_default_pattern_witness :
  ∃ s, setup true initial_state = Done () s ∧ is_Some (read s 5).
Proof.
  eexists. split; [apply emits_setup|].
  apply (proj2 (proj2 (proj2 (proj2 (proj2 (proj2 store_default_pattern)))))
           true (play (setup_events true) initial_state) 5);
    [apply reachable_setup, emits_setup | unfold NUM_DIGITS; lia].
Defined.

(** ** Digit commons during a refresh cycle *)

Lemma length_filter_impl {A} (P Q : A → Prop)
    `{!∀ x, Decision (P x)} `{!∀ x, Decision (Q x)} (l : list A) :
  Forall (λ x, P x → Q x) l →
  (length (filter P l) ≤ length (filter Q l))%nat.
Proof.
  induction 1 as [|x l Hx _ IH]; [done|].
  rewrite !filter_cons. repeat case_decide; simpl; try lia. tauto.
Qed.

Lemma drive_on_off anode : drive anode false ≠ drive anode true.
Proof. by destruct anode. Qed.

Lemma num_active_lowers anode e p :
  lowers anode e →
  (num_active anode (apply_event p e) ≤ num_active anode p)%nat.
Proof.
  destruct e as [| pin l | |]; simpl; try done.
  intros Hlow. apply length_filter_impl, Forall_forall. intros q Hq.
  rewrite lookup_insert. case_decide as Hpin; [|done].
  subst q. destruct Hlow as [->|]; [|done].
  intros [=Heq]. by destruct (drive_on_off anode).
Qed.

Lemma num_active_replay_lowers anode evs p :
  Forall (lowers anode) evs →
  (num_active anode (replay evs p) ≤ num_active anode p)%nat.
Proof.
  intros Hall. revert p. induction Hall as [|e evs He _ IH]; intros p; [done|].
  etrans; [apply IH|]. by apply num_active_lowers.
Qed.

Lemma Forall_prefix {A} (P : A → Prop) (pre l : list A) :
  pre `prefix_of` l → Forall P l → Forall P pre.
Proof. intros [k ->] Hall. by apply Forall_app in Hall as [? _]. Qed.

Lemma prefix_app_cases {A} (pre l1 l2 : list A) :
  pre `prefix_of` l1 ++ l2 →
  pre `prefix_of` l1 ∨ ∃ k, pre = l1 ++ k ∧ k `prefix_of` l2.
Proof.
  revert pre. induction l1 as [|x l1 IH]; intros pre Hpre.
  - right. by exists pre.
  - destruct pre as [|y pre]; [left; apply prefix_nil|].
    simpl in Hpre. pose proof (prefix_cons_inv_1 _ _ _ _ Hpre) as ->.
    apply prefix_cons_inv_2, IH in Hpre as [Hpre|(k & -> & Hk)].
    + left. by apply prefix_cons.
    + right. by exists k.
Qed.

Lemma last_write_app q e1 e2 :
  last_write q (e1 ++ e2) =
    match last_write q e2 with
    | Some l => Some l
    | None => last_write q e1
    end.
Proof.
  induction e1 as [|e e1 IH]; simpl; [by destruct (last_write q e2)|].
  rewrite IH. by destruct (last_write q e2).
Qed.

(** The active commons after events that wrote every common. *)
Lemma active_commons_replay anode evs p :
  Forall (λ q, is_Some (last_write q evs)) commonPins →
  active_commons anode (replay evs p) =
    filter (λ q, last_write q evs = Some (drive anode true)) commonPins.
Proof.
  unfold active_commons. generalize commonPins.
  induction 1 as [|q l [lv Hq] _ IH]; [done|].
  rewrite !filter_cons, IH, replay_lookup, Hq. done.
Qed.

Lemma commons_off_writes_all anode q :
  q ∈ commonPins →
  last_write q (commons_off_events anode) = Some (drive anode false).
Proof.
  intros Hq. repeat (apply elem_of_cons in Hq as [->|Hq]; [done|]).
  by apply elem_of_nil in Hq.
Qed.

Lemma num_active_after_off anode l p :
  num_active anode (replay (commons_off_events anode ++ l) p) =
    length (filter (λ q, last_write q (commons_off_events anode ++ l)
                         = Some (drive anode true)) commonPins).
Proof.
  unfold num_active. rewrite active_commons_replay; [done|].
  apply Forall_forall. intros q Hq.
  rewrite last_write_app, (commons_off_writes_all _ _ Hq).
  by destruct (last_write q l).
Qed.

Lemma lowers_commons_off anode : Forall (lowers anode) (commons_off_events anode).
Proof.
  apply Forall_flat_map, Forall_forall. intros i _.
  rewrite !Forall_cons. split_and!; try done. by left.
Qed.

Lemma lowers_segments anode ds d : Forall (lowers anode) (segment_events anode ds d).
Proof.
  apply Forall_flat_map, Forall_forall. intros seg Hseg%elem_of_seqZ.
  rewrite !Forall_cons. split_and!; try done. right.
  assert (0 ≤ seg < 8) as Hs by lia.
  cases_below seg Hs; by apply (bool_decide_unpack _).
Qed.

(** After the whole of [updateDisplay d] the common of [d] alone is active. *)
Lemma num_active_activated anode d p :
  0 ≤ d < NUM_DIGITS →
  num_active anode
    (replay (commons_off_events anode ++ activate_events anode d) p) = 1%nat.
Proof.
  intros Hd. unfold NUM_DIGITS in Hd. rewrite num_active_after_off.
  cases_below d Hd; by destruct anode.
Qed.

(** Within one [updateDisplay], started with at most one common active, at
    most one common is active after each event. *)
Lemma updateDisplay_one_active anode ds d p pre :
  0 ≤ d < NUM_DIGITS →
  (num_active anode p ≤ 1)%nat →
  pre `prefix_of` updateDisplay_events anode ds d →
  (num_active anode (replay pre p) ≤ 1)%nat.
Proof.
  intros Hd Hp Hpre. unfold updateDisplay_events in Hpre.
  apply prefix_app_cases in Hpre as [Hpre|(k & -> & Hk)].
  { etrans; [|exact Hp]. apply num_active_replay_lowers.
    eapply Forall_prefix; [done | apply lowers_commons_off]. }
  apply prefix_app_cases in Hk as [Hk|(k' & -> & Hk')].
  - destruct k as [|e1 [|e2 k]].
    + rewrite num_active_after_off. by destruct anode; vm_compute; lia.
    + apply prefix_cons_inv_1 in Hk as ->.
      rewrite num_active_after_off. by destruct anode; vm_compute; lia.
    + pose proof (prefix_cons_inv_1 _ _ _ _ Hk) as ->.
      apply prefix_cons_inv_2 in Hk.
      pose proof (prefix_cons_inv_1 _ _ _ _ Hk) as ->.
      apply prefix_cons_inv_2, prefix_nil_inv in Hk as ->.
      pose proof (num_active_activated anode d p Hd) as Hone.
      unfold activate_events in Hone. by rewrite Hone.
  - rewrite !app_assoc, replay_app.
    etrans; [apply num_active_replay_lowers|].
    { eapply Forall_prefix; [done | apply lowers_segments]. }
    by rewrite (num_active_activated anode d p Hd).
Qed.

(** The same over a whole refresh cycle. *)
Lemma cycle_one_active anode ds p :
  (num_active anode p ≤ 1)%nat →
  one_active_throughout anode (cycle_events anode ds) p.
Proof.
  unfold cycle_events, one_active_throughout.
  assert (Forall (λ d, 0 ≤ d < NUM_DIGITS) (seqZ 0 NUM_DIGITS)) as Hds.
  { apply Forall_forall. intros d Hd%elem_of_seqZ. lia. }
  revert p Hds. generalize (seqZ 0 NUM_DIGITS). intros digits.
  induction digits as [|d digits IH]; intros p Hds Hp pre Hpre.
  { apply prefix_nil_inv in Hpre as ->. done. }
  apply Forall_cons in Hds as [Hd Hds]. cbn [flat_map] in Hpre.
  apply prefix_app_cases in Hpre as [Hpre|(k & -> & Hk)].
  - apply prefix_app_cases in Hpre as [Hpre|(k & -> & Hk)].
    + by apply (updateDisplay_one_active anode ds d).
    + rewrite replay_app.
      etrans; [apply num_active_replay_lowers|].
      { eapply Forall_prefix; [done | by repeat constructor]. }
      apply (updateDisplay_one_active anode ds d); done.
  - rewrite replay_app. apply IH; [done| |done].
    rewrite replay_app.
    etrans; [apply num_active_replay_lowers; by repeat constructor|].
    apply (updateDisplay_one_active anode ds d); done.
Qed.

(** A refresh cycle ends with at most one common active, whatever it
    started from. *)
Lemma cycle_end_one_active anode ds p :
  (num_active anode (replay (cycle_events anode ds) p) ≤ 1)%nat.
Proof.
  unfold cycle_events.
  change (seqZ 0 NUM_DIGITS) with (seqZ 0 5 ++ [5]).
  rewrite flat_map_app. cbn [flat_map]. rewrite app_nil_r.
  rewrite replay_app. generalize (replay (flat_map
    (λ d, updateDisplay_events anode ds d ++ [EvDelayMicroseconds 2])
    (seqZ 0 5)) p). intros p'.
  unfold updateDisplay_events. rewrite !app_assoc, !replay_app.
  etrans; [apply num_active_replay_lowers; by repeat constructor|].
  etrans; [apply num_active_replay_lowers, lowers_segments|].
  rewrite <- replay_app. by rewrite num_active_activated.
Qed.

(** Every refresh cycle that follows a refresh cycle keeps at most one
    common active throughout: the receiver and the idle passes of [loop]
    in between do not touch the pins. *)
Lemma later_cycles_one_active anode s t1 t2 s1 s2 :
  length (digitStates s) = 6%nat →
  refresh_due t1 s = true →
  loop anode t1 t2 s = Done () s1 →
  pins s2 = pins s1 →
  one_active_throughout anode (cycle_events anode (digitStates s2)) (pins s2).
Proof.
  intros Hlen Hdue Hrun Hpins. rewrite loop_run, Hdue in Hrun by done.
  injection Hrun as <-. simpl_state. rewrite Hpins.
  apply cycle_one_active, cycle_end_one_active.
Qed.

Lemma receiveEvent_pins fuel numBytes s s' :
  length (digitStates s) = 6%nat →
  receiveEvent fuel numBytes s = Done () s' →
  pins s' = pins s ∧ lastUpdateTime s' = lastUpdateTime s.
Proof. intros Hlen Hrun%receiveEvent_Done; [by subst s' | done]. Qed.

(** C4.  What the code does in the first refresh cycle after power-on, for
    either polarity: [setup] leaves all six digit commons at the level that
    [updateDisplay] uses to turn a digit on, the first cycle starts in that
    state, and after the first write of [updateDisplay 0] five commons are
    still at that level. *)
Theorem first_cycle_commons_active anode :
  ∃ s0 s1,
    setup anode initial_state = Done () s0 ∧
    refresh_due 3 s0 = true ∧
    loop anode 3 3 s0 = Done () s1 ∧
    trace s1 = trace s0 ++ cycle_events anode (digitStates s0) ∧
    take 2 (cycle_events anode (digitStates s0)) =
      [EvIndex TCommonPins 0; EvDigitalWrite 3 (drive anode false)] ∧
    active_commons anode (pins s0) = commonPins ∧
    active_commons anode
      (replay (take 2 (cycle_events anode (digitStates s0))) (pins s0)) =
      [5; 6; 9; 10; 11] ∧
    num_active anode
      (replay (take 2 (cycle_events anode (digitStates s0))) (pins s0)) = 5%nat ∧
    ¬ one_active_throughout anode (cycle_events anode (digitStates s0)) (pins s0).
Proof.
  exists (play (setup_events anode) initial_state). eexists.
  split; [apply emits_setup|]. split; [done|].
  split; [by apply loop_run|].
  split; [done|]. split; [done|].
  assert (num_active anode
    (replay (take 2 (cycle_events anode (digitStates
       (play (setup_events anode) initial_state))))
       (pins (play (setup_events anode) initial_state))) = 5%nat) as Hfive.
  { by destruct anode; vm_compute. }
  split; [by destruct anode; vm_compute|].
  split; [by destruct anode; vm_compute|].
  split; [done|].
  intros Hone. specialize (Hone _ (prefix_take _ 2)). lia.
Qed.

(** With the polarity the repository configures (common anode), [setup]
    leaves every digit common LOW, which is the level [updateDisplay]
    writes to turn a digit on, and every segment line HIGH. *)
Example setup_levels_as_configured :
  ∃ s0, setup IS_COMMON_ANODE initial_state = Done () s0 ∧
        Forall (λ pin, pins s0 !! pin = Some false) commonPins ∧
        Forall (λ pin, pins s0 !! pin = Some true) segmentPins ∧
        drive IS_COMMON_ANODE true = false.
Proof.
  eexists. split; [apply emits_setup|].
  split; [|split; [|done]];
    repeat (constructor; [by vm_compute|]); constructor.
Qed.

(** * Further properties of the code *)

(** ** The update receiver on whole transactions *)

Lemma lookup_write ds u i :
  length ds = 6%nat →
  0 ≤ i < NUM_DIGITS →
  write ds u !! Z.to_nat i =
    if bool_decide (u.1 = i) then Some u.2 else ds !! Z.to_nat i.
Proof.
  intros Hlen Hi. unfold write, NUM_DIGITS in *.
  case_bool_decide as Hu.
  - case_bool_decide as Heq.
    + rewrite Heq. apply list_lookup_insert_eq. lia.
    + apply list_lookup_insert_ne. lia.
  - rewrite bool_decide_false by lia. done.
Qed.

Lemma lookup_foldl_write us ds i :
  length ds = 6%nat →
  0 ≤ i < NUM_DIGITS →
  foldl write ds us !! Z.to_nat i =
    match last_update i us with
    | Some p => Some p
    | None => ds !! Z.to_nat i
    end.
Proof.
  intros Hlen Hi. revert ds Hlen.
  induction us as [|u us IH]; intros ds Hlen; simpl; [done|].
  rewrite IH by (by rewrite length_write).
  destruct (last_update i us); [done|].
  rewrite lookup_write by done. by case_bool_decide.
Qed.

(** X1.  The last pair of a transaction that addresses a digit decides the
    digit's pattern; a digit no pair addresses keeps its pattern.  Pairs
    with an index outside [[0, 6)] never count. *)
Theorem receive_last_pair_wins fuel numBytes s bytes i :
  length (digitStates s) = 6%nat →
  (length bytes / 2 < fuel)%nat →
  0 ≤ i < NUM_DIGITS →
  ∃ s', receiveEvent fuel numBytes (deliver bytes s) = Done () s' ∧
        read s' i = match last_update i (pairs bytes) with
                    | Some p => Some p
                    | None => read s i
                    end.
Proof.
  intros Hlen Hfuel Hi.
  eexists. split; [by apply receiveEvent_run|].
  unfold read. simpl_state. unfold NUM_DIGITS in Hi.
  rewrite bool_decide_true by lia.
  by apply lookup_foldl_write.
Qed.

Lemma receive_last_pair_wins_witness :
  ∃ s', receiveEvent 4 6 (deliver [1; 6; 9; 255; 1; 91] initial_state) = Done () s' ∧
        read s' 1 = match last_update 1 (pairs [1; 6; 9; 255; 1; 91]) with
                    | Some p => Some p
                    | None => read initial_state 1
                    end.
Proof.
  apply (receive_last_pair_wins 4 6 initial_state [1; 6; 9; 255; 1; 91] 1);
    [reflexivity | simpl; lia | unfold NUM_DIGITS; lia].
Defined.

Lemma length_leftover bytes : (length (leftover bytes) ≤ 1)%nat.
Proof. induction bytes as [| |a b l IH] using pair_ind; simpl; lia. Qed.

Lemma leftover_even bytes : Nat.Even (length bytes) → leftover bytes = [].
Proof.
  induction bytes as [|a|a b l IH] using pair_ind; intros [k Hk]; [done| |].
  - simpl in Hk. lia.
  - simpl. apply IH. exists (k - 1)%nat. simpl in Hk. lia.
Qed.

Lemma pairs_leftover bytes : pairs (leftover bytes) = [].
Proof. by induction bytes as [| |a b l IH] using pair_ind. Qed.

Lemma leftover_leftover bytes : leftover (leftover bytes) = leftover bytes.
Proof. by induction bytes as [| |a b l IH] using pair_ind. Qed.

(** X2.  The receiver drains the buffer: at most one byte is left, none when the
    transaction had an even number of bytes, and running the receiver again
    on what is left changes nothing. *)
Theorem receive_drains_buffer fuel numBytes s bytes :
  length (digitStates s) = 6%nat →
  (length bytes / 2 < fuel)%nat →
  ∃ s', receiveEvent fuel numBytes (deliver bytes s) = Done () s' ∧
        (length (rxBuffer s') ≤ 1)%nat ∧
        (Nat.Even (length bytes) → rxBuffer s' = []) ∧
        ∀ fuel' numBytes', (0 < fuel')%nat →
          receiveEvent fuel' numBytes' s' = Done () s'.
Proof.
  intros Hlen Hfuel.
  eexists. split; [by apply receiveEvent_run|]. simpl_state.
  split; [apply length_leftover|]. split; [apply leftover_even|].
  intros fuel' numBytes' Hfuel'.
  rewrite receiveEvent_run; simpl_state.
  - rewrite pairs_leftover, leftover_leftover. unfold receive_events at 2.
    rewrite pairs_leftover. simpl. by rewrite app_nil_r.
  - by rewrite length_foldl_write.
  - pose proof (length_leftover bytes) as Hle.
    destruct (leftover bytes) as [|? [|? ?]]; simpl in *; lia.
Qed.

Lemma receive_drains_buffer_witness :
  ∃ s', receiveEvent 2 3 (deliver [2; 102; 5] initial_state) = Done () s' ∧
        (length (rxBuffer s') ≤ 1)%nat ∧
        (Nat.Even (length [2; 102; 5]) → rxBuffer s' = []) ∧
        ∀ fuel' numBytes', (0 < fuel')%nat →
          receiveEvent fuel' numBytes' s' = Done () s'.
Proof.
  apply (receive_drains_buffer 2 3 initial_state [2; 102; 5]);
    [reflexivity | simpl; lia].
Defined.

Lemma receive_events_store bytes :
  Forall (λ e, ∃ i, e = EvIndex TDigitStates i ∧ 0 ≤ i < NUM_DIGITS)
         (receive_events bytes).
Proof.
  unfold receive_events. apply Forall_flat_map, Forall_forall. intros u _.
  case_bool_decide; [|done]. repeat constructor. by exists u.1.
Qed.

(** X3.  The receiver does no display work: the pin levels and [lastUpdateTime]
    are as before, and all it did, for bytes of any value, is access
    [digitStates] at indices within [[0, 6)]. *)
Theorem receive_touches_store_only fuel numBytes s bytes :
  length (digitStates s) = 6%nat →
  (length bytes / 2 < fuel)%nat →
  ∃ s' evs, receiveEvent fuel numBytes (deliver bytes s) = Done () s' ∧
            pins s' = pins s ∧
            lastUpdateTime s' = lastUpdateTime s ∧
            trace s' = trace s ++ evs ∧
            Forall (λ e, ∃ i, e = EvIndex TDigitStates i ∧ 0 ≤ i < NUM_DIGITS) evs.
Proof.
  intros Hlen Hfuel.
  eexists _, _. split; [by apply receiveEvent_run|]. simpl_state.
  split; [done|]. split; [done|]. split; [done|].
  apply receive_events_store.
Qed.

Lemma receive_touches_store_only_witness :
  ∃ s' evs, receiveEvent 3 4 (deliver [0; 63; 200; 1] initial_state) = Done () s' ∧
            pins s' = pins initial_state ∧
            lastUpdateTime s' = lastUpdateTime initial_state ∧
            trace s' = trace initial_state ++ evs ∧
            Forall (λ e, ∃ i, e = EvIndex TDigitStates i ∧ 0 ≤ i < NUM_DIGITS) evs.
Proof.
  apply (receive_touches_store_only 3 4 initial_state [0; 63; 200; 1]);
    [reflexivity | simpl; lia].
Defined.

Lemma pairs_app_even b1 b2 :
  Nat.Even (length b1) → pairs (b1 ++ b2) = pairs b1 ++ pairs b2.
Proof.
  induction b1 as [|a|a b l IH] using pair_ind; intros [k Hk]; [done| |].
  - simpl in Hk. lia.
  - simpl. f_equal. apply IH. exists (k - 1)%nat. simpl in Hk. lia.
Qed.

Lemma leftover_app_even b1 b2 :
  Nat.Even (length b1) → leftover (b1 ++ b2) = leftover b2.
Proof.
  induction b1 as [|a|a b l IH] using pair_ind; intros [k Hk]; [done| |].
  - simpl in Hk. lia.
  - simpl. apply IH. exists (k - 1)%nat. simpl in Hk. lia.
Qed.

Lemma half_le_mono (n m : nat) : (n ≤ m → n / 2 ≤ m / 2)%nat.
Proof. intros. apply Nat.Div0.div_le_mono. done. Qed.

(** X4.  Two transactions in a row, the first of even length, leave the device
    in the state that the one transaction made of both leaves it in. *)
Theorem receive_transactions_compose fuel numBytes s bytes1 bytes2 :
  length (digitStates s) = 6%nat →
  Nat.Even (length bytes1) →
  (length (bytes1 ++ bytes2) / 2 < fuel)%nat →
  ∃ s1 s2,
    receiveEvent fuel numBytes (deliver bytes1 s) = Done () s1 ∧
    receiveEvent fuel numBytes (deliver bytes2 s1) = Done () s2 ∧
    receiveEvent fuel numBytes (deliver (bytes1 ++ bytes2) s) = Done () s2.
Proof.
  intros Hlen Hev Hfuel. rewrite length_app in Hfuel.
  assert (length bytes1 / 2 < fuel)%nat as Hfuel1.
  { eapply Nat.le_lt_trans; [apply half_le_mono|exact Hfuel]. lia. }
  assert (length bytes2 / 2 < fuel)%nat as Hfuel2.
  { eapply Nat.le_lt_trans; [apply half_le_mono|exact Hfuel]. lia. }
  eexists _, _. split; [by apply receiveEvent_run|].
  split.
  - apply receiveEvent_run; simpl_state; [|done].
    by rewrite length_foldl_write.
  - rewrite receiveEvent_run; simpl_state; [|done|by rewrite length_app].
    unfold receive_events.
    rewrite pairs_app_even, leftover_app_even, foldl_app, flat_map_app by done.
    by rewrite app_assoc.
Qed.

Lemma receive_transactions_compose_witness :
  ∃ s1 s2,
    receiveEvent 3 2 (deliver [0; 63] initial_state) = Done () s1 ∧
    receiveEvent 3 2 (deliver [1; 6; 9] s1) = Done () s2 ∧
    receiveEvent 3 2 (deliver ([0; 63] ++ [1; 6; 9]) initial_state) = Done () s2.
Proof.
  apply (receive_transactions_compose 3 2 initial_state [0; 63] [1; 6; 9]);
    [reflexivity | by exists 1%nat | simpl; lia].
Defined.

Lemma write_commute ds u v :
  u.1 ≠ v.1 → write (write ds u) v = write (write ds v) u.
Proof.
  intros Hne. unfold write. repeat case_bool_decide; try done.
  apply list_insert_insert_ne. lia.
Qed.

(** X5.  Updates of two different digits commute: the store does not depend on
    the order in which a transaction lists them. *)
Theorem receive_distinct_digits_commute fuel numBytes s i p j q :
  length (digitStates s) = 6%nat →
  (2 < fuel)%nat →
  to_byte i ≠ to_byte j →
  ∃ s1 s2,
    receiveEvent fuel numBytes (deliver [i; p; j; q] s) = Done () s1 ∧
    receiveEvent fuel numBytes (deliver [j; q; i; p] s) = Done () s2 ∧
    digitStates s1 = digitStates s2.
Proof.
  intros Hlen Hfuel Hne.
  eexists _, _.
  split; [apply receiveEvent_run; simpl_state; [done | simpl; lia]|].
  split; [apply receiveEvent_run; simpl_state; [done | simpl; lia]|].
  simpl. by apply write_commute.
Qed.

Lemma receive_distinct_digits_commute_witness :
  ∃ s1 s2,
    receiveEvent 3 4 (deliver [0; 63; 1; 6] initial_state) = Done () s1 ∧
    receiveEvent 3 4 (deliver [1; 6; 0; 63] initial_state) = Done () s2 ∧
    digitStates s1 = digitStates s2.
Proof.
  apply (receive_distinct_digits_commute 3 4 initial_state 0 63 1 6);
    [reflexivity | lia | done].
Defined.

(** ** The scan driver and [setup] *)






Lemma last_write_None pin evs :
  pin ∉ written_pins evs → last_write pin evs = None.
Proof.
  induction evs as [|e evs IH]; [done|]. unfold written_pins. simpl.
  destruct e as [| pin' l | |]; simpl; intros Hpin;
    try (by rewrite IH).
  apply not_elem_of_cons in Hpin as [Hne Hpin].
  rewrite IH by done. by rewrite bool_decide_false.
Qed.

Lemma last_write_Some pin evs :
  pin ∈ written_pins evs → is_Some (last_write pin evs).
Proof.
  induction evs as [|e evs IH]; unfold written_pins; simpl.
  { by intros ?%elem_of_nil. }
  destruct e as [| pin' l | |]; simpl; intros Hpin;
    try (destruct (IH Hpin) as [lv ->]; by eexists).
  apply elem_of_cons in Hpin as [->|Hpin].
  - destruct (last_write pin' evs); [by eexists|].
    rewrite bool_decide_true by done. by eexists.
  - destruct (IH Hpin) as [lv ->]. by eexists.
Qed.

Lemma written_pins_app e1 e2 :
  written_pins (e1 ++ e2) = written_pins e1 ++ written_pins e2.
Proof. apply omap_app. Qed.

Lemma written_pins_updateDisplay anode ds d :
  written_pins (updateDisplay_events anode ds d) =
    commonPins ++ [elt commonPins d] ++ segmentPins.
Proof. reflexivity. Qed.

Lemma written_pins_cycle anode ds :
  Forall (λ pin, pin ∈ commonPins ++ segmentPins)
         (written_pins (cycle_events anode ds)).
Proof.
  apply Forall_forall. intros pin Hpin.
  unfold written_pins, cycle_events in Hpin.
  apply list_elem_of_omap in Hpin as (e & He & Hpin).
  apply list_elem_of_In, in_flat_map in He as (d & Hd & He).
  apply list_elem_of_In in Hd, He.
  apply elem_of_seqZ in Hd. unfold NUM_DIGITS in Hd.
  assert (pin ∈ written_pins (updateDisplay_events anode ds d ++
                               [EvDelayMicroseconds 2])) as Hw.
  { apply list_elem_of_omap. by exists e. }
  rewrite written_pins_app, written_pins_updateDisplay in Hw.
  rewrite !elem_of_app in Hw. rewrite elem_of_app.
  destruct Hw as [[?|[Hd2%list_elem_of_singleton|?]]|Hnil];
    [by left | | by right | by apply elem_of_nil in Hnil].
  left. subst pin. apply list_elem_of_lookup. exists (Z.to_nat d).
  apply elt_lookup. simpl. lia.
Qed.

(** X7.  A pass of [loop] writes no pin but the six commons and the eight
    segment lines, and leaves the store and the receive buffer alone. *)
Theorem loop_touches_display_pins_only anode t_check t_done s :
  length (digitStates s) = 6%nat →
  ∃ s', loop anode t_check t_done s = Done () s' ∧
        digitStates s' = digitStates s ∧
        rxBuffer s' = rxBuffer s ∧
        ∀ pin, pin ∉ commonPins → pin ∉ segmentPins →
               pins s' !! pin = pins s !! pin.
Proof.
  intros Hlen. rewrite loop_run by done.
  eexists. split; [done|].
  destruct (refresh_due t_check s); [|done]. simpl_state.
  split; [done|]. split; [done|].
  intros pin Hc Hs. rewrite replay_lookup, last_write_None; [done|].
  intros Hpin.
  pose proof (written_pins_cycle anode (digitStates s)) as Hall.
  rewrite Forall_forall in Hall.
  apply Hall, elem_of_app in Hpin as [?|?]; done.
Qed.

Lemma loop_touches_display_pins_only_witness :
  ∃ s', loop true 3 3 initial_state = Done () s' ∧
        digitStates s' = digitStates initial_state ∧
        rxBuffer s' = rxBuffer initial_state ∧
        ∀ pin, pin ∉ commonPins → pin ∉ segmentPins →
               pins s' !! pin = pins initial_state !! pin.
Proof.
  apply (loop_touches_display_pins_only true 3 3 initial_state). reflexivity.
Defined.

Lemma setup_common_write anode i :
  0 ≤ i < 6 →
  last_write (elt commonPins i) (setup_events anode) = Some (drive anode true).
Proof. intros Hi. cases_below i Hi; reflexivity. Qed.

Lemma setup_segment_write anode seg :
  0 ≤ seg < 8 →
  last_write (elt segmentPins seg) (setup_events anode) = Some (drive anode false).
Proof. intros Hseg. cases_below seg Hseg; reflexivity. Qed.

(** X8.  [setup], from any state, never faults; it puts the six commons and the
    eight segment lines in output mode, leaves every common at
    [!IS_COMMON_ANODE] and every segment line at [IS_COMMON_ANODE], and
    touches no other pin, nor the store. *)
Theorem setup_levels anode s :
  ∃ s' evs,
    setup anode s = Done () s' ∧
    trace s' = trace s ++ evs ∧
    configured_pins evs = commonPins ++ segmentPins ∧
    digitStates s' = digitStates s ∧
    (∀ i, 0 ≤ i < NUM_DIGITS → pins s' !! elt commonPins i = Some (negb anode)) ∧
    (∀ seg, 0 ≤ seg < 8 → pins s' !! elt segmentPins seg = Some anode) ∧
    (∀ pin, pin ∉ commonPins → pin ∉ segmentPins →
            pins s' !! pin = pins s !! pin).
Proof.
  exists (play (setup_events anode) s), (setup_events anode).
  split; [apply emits_setup|]. simpl_state.
  split; [done|]. split; [done|]. split; [done|]. unfold NUM_DIGITS.
  split; [|split].
  - intros i Hi. rewrite replay_lookup, setup_common_write by done.
    by destruct anode.
  - intros seg Hseg. rewrite replay_lookup, setup_segment_write by done.
    by destruct anode.
  - intros pin Hc Hs. rewrite replay_lookup, last_write_None; [done|].
    change (written_pins (setup_events anode)) with (commonPins ++ segmentPins).
    by intros [?|?]%elem_of_app.
Qed.

(** ** The trace over the life of the device *)

Lemma writes_configured_sound evs conf :
  writes_configured conf evs = true →
  ∀ k pin level, evs !! k = Some (EvDigitalWrite pin level) →
    pin ∈ conf ∨ ∃ k', (k' < k)%nat ∧ evs !! k' = Some (EvPinMode pin).
Proof.
  revert conf. induction evs as [|e evs IH]; intros conf Hchk k pin level Hk;
    [done|].
  destruct e as [pin0 | pin0 l0 | us | t i]; simpl in Hchk.
  - destruct k as [|k]; [done|]. simpl in Hk.
    destruct (IH _ Hchk _ _ _ Hk) as [Hin|(k' & Hlt & Hk')].
    + apply elem_of_cons in Hin as [->|Hin]; [|by left].
      right. exists 0%nat. split; [lia | done].
    + right. exists (S k'). split; [lia | done].
  - apply andb_true_iff in Hchk as [Hin%bool_decide_eq_true Hchk].
    destruct k as [|k]; simpl in Hk.
    + injection Hk as -> ->. by left.
    + destruct (IH _ Hchk _ _ _ Hk) as [Hin'|(k' & Hlt & Hk')]; [by left|].
      right. exists (S k'). split; [lia | done].
  - destruct k as [|k]; [done|]. simpl in Hk.
    destruct (IH _ Hchk _ _ _ Hk) as [Hin'|(k' & Hlt & Hk')]; [by left|].
    right. exists (S k'). split; [lia | done].
  - destruct k as [|k]; [done|]. simpl in Hk.
    destruct (IH _ Hchk _ _ _ Hk) as [Hin'|(k' & Hlt & Hk')]; [by left|].
    right. exists (S k'). split; [lia | done].
Qed.

Lemma configured_before_write_setup anode :
  configured_before_write (setup_events anode).
Proof.
  intros k pin level Hk.
  destruct (writes_configured_sound (setup_events anode) [] eq_refl _ _ _ Hk)
    as [Hin|?]; [|done].
  by apply elem_of_nil in Hin.
Qed.

Lemma configured_before_write_app e1 e2 :
  configured_before_write e1 →
  Forall (λ pin, pin ∈ configured_pins e1) (written_pins e2) →
  configured_before_write (e1 ++ e2).
Proof.
  intros H1 H2 k pin level Hk.
  apply lookup_app_Some in Hk as [Hk|[Hle Hk]].
  - destruct (H1 _ _ _ Hk) as (k' & Hlt & Hk'). exists k'.
    split; [done|]. by apply lookup_app_l_Some.
  - assert (pin ∈ written_pins e2) as Hw.
    { apply list_elem_of_omap. exists (EvDigitalWrite pin level).
      split; [|done]. apply list_elem_of_lookup. by eexists. }
    rewrite Forall_forall in H2.
    apply H2, list_elem_of_omap in Hw as (e & He & Hpin).
    destruct e as [pin0| | |]; try done. injection Hpin as ->.
    apply list_elem_of_lookup in He as [k' Hk'].
    exists k'. split; [|by apply lookup_app_l_Some].
    apply lookup_lt_Some in Hk'. lia.
Qed.

Lemma written_pins_receive bytes : written_pins (receive_events bytes) = [].
Proof.
  unfold receive_events. induction (pairs bytes) as [|u us IH]; [done|].
  simpl. rewrite written_pins_app, IH. by case_bool_decide.
Qed.

Lemma configured_pins_app e1 e2 :
  configured_pins (e1 ++ e2) = configured_pins e1 ++ configured_pins e2.
Proof. apply omap_app. Qed.

Lemma reachable_configured anode s :
  reachable anode s →
  configured_before_write (trace s) ∧
  Forall (λ pin, pin ∈ configured_pins (trace s)) (commonPins ++ segmentPins).
Proof.
  induction 1 as [s Hs|s fuel n bytes s' Hr [IH1 IH2] Hs|s t1 t2 s' Hr [IH1 IH2] Hs].
  - rewrite (emits_setup anode initial_state) in Hs. injection Hs as <-.
    simpl_state. simpl app. split; [apply configured_before_write_setup|].
    change (configured_pins (setup_events anode))
      with (commonPins ++ segmentPins).
    by apply Forall_forall.
  - apply receiveEvent_Done in Hs;
      [|simpl_state; by apply (reachable_store_length anode)].
    subst s'. simpl_state. split.
    + apply configured_before_write_app; [done|].
      by rewrite written_pins_receive.
    + rewrite configured_pins_app. eapply Forall_impl; [exact IH2|].
      intros pin Hpin. apply elem_of_app. by left.
  - rewrite loop_run in Hs by (by apply (reachable_store_length anode)).
    injection Hs as <-. destruct (refresh_due t1 s); [|done]. simpl_state.
    split.
    + apply configured_before_write_app; [done|].
      eapply Forall_impl; [apply written_pins_cycle|].
      intros pin Hpin. rewrite Forall_forall in IH2. by apply IH2.
    + rewrite configured_pins_app. eapply Forall_impl; [exact IH2|].
      intros pin Hpin. apply elem_of_app. by left.
Qed.

(** X9.  In every state the device reaches, each [digitalWrite] it has done was
    to a pin that [setup] had put in output mode before. *)
Theorem writes_follow_pinMode anode s :
  reachable anode s → configured_before_write (trace s).
Proof. by intros [? _]%reachable_configured. Qed.

Lemma writes_follow_pinMode_witness :
  configured_before_write (trace (play (setup_events true) initial_state)).
Proof.
  apply (writes_follow_pinMode true (play (setup_events true) initial_state)).
  apply reachable_setup, emits_setup.
Defined.

Lemma index_in_range_setup anode : Forall index_in_range (setup_events anode).
Proof.
  unfold setup_events. rewrite Forall_app. split.
  - apply Forall_flat_map, Forall_forall. intros i Hi%elem_of_seqZ.
    repeat constructor; simpl; unfold NUM_DIGITS in *; lia.
  - apply Forall_flat_map, Forall_forall. intros i Hi%elem_of_seqZ.
    repeat constructor; simpl; lia.
Qed.

Lemma index_in_range_receive bytes : Forall index_in_range (receive_events bytes).
Proof.
  eapply Forall_impl; [apply receive_events_store|].
  intros e (i & -> & Hi). exact Hi.
Qed.

(** X10.  In every state the device reaches, whatever bytes were received, every
    array access made so far ([digitStates], [commonPins], [segmentPins];
    by [setup], the receiver and the scan driver) was inside its array. *)
Theorem device_indices_in_range anode s :
  reachable anode s → Forall index_in_range (trace s).
Proof.
  induction 1 as [s Hs|s fuel n bytes s' Hr IH Hs|s t1 t2 s' Hr IH Hs].
  - rewrite (emits_setup anode initial_state) in Hs. injection Hs as <-.
    apply index_in_range_setup.
  - apply receiveEvent_Done in Hs;
      [|simpl_state; by apply (reachable_store_length anode)].
    subst s'. simpl_state. apply Forall_app. split; [done|].
    apply index_in_range_receive.
  - rewrite loop_run in Hs by (by apply (reachable_store_length anode)).
    injection Hs as <-. destruct (refresh_due t1 s); [|done]. simpl_state.
    apply Forall_app. split; [done | apply index_in_range_cycle].
Qed.

Lemma device_indices_in_range_witness :
  Forall index_in_range (trace (play (setup_events true) initial_state)).
Proof.
  apply (device_indices_in_range true (play (setup_events true) initial_state)).
  apply reachable_setup, emits_setup.
Defined.

(** ** The display across calls *)







Lemma elt_insert ds i p :
  0 ≤ i < Z.of_nat (length ds) → elt (<[Z.to_nat i := p]> ds) i = p.
Proof.
  intros Hi. unfold elt. rewrite list_lookup_insert_eq; [done | lia].
Qed.

(** X13.  From the bus to the pins: once the pair [(i, p)] has been received,
    the next [updateDisplay i] puts bit [seg] of [p] on every segment line
    [seg], with the configured polarity, and turns the common of [i] on. *)
Theorem received_pattern_displayed anode fuel numBytes s i p :
  length (digitStates s) = 6%nat →
  (1 < fuel)%nat →
  0 ≤ i < NUM_DIGITS →
  0 ≤ p < 256 →
  ∃ s1 s2,
    receiveEvent fuel numBytes (deliver [i; p] s) = Done () s1 ∧
    updateDisplay anode i s1 = Done () s2 ∧
    pins s2 !! elt commonPins i = Some (negb anode) ∧
    (∀ seg, 0 ≤ seg < 8 →
       pins s2 !! elt segmentPins seg =
         Some (if anode then negb (Z.testbit p seg) else Z.testbit p seg)).
Proof.
  intros Hlen Hfuel Hi Hp. unfold NUM_DIGITS in Hi.
  eexists _, _.
  split; [apply receiveEvent_run; simpl_state; [done | simpl; lia]|].
  split.
  { apply emits_updateDisplay; simpl_state; [|done].
    by rewrite length_foldl_write. }
  simpl_state. simpl pairs. simpl foldl.
  rewrite !to_byte_id by lia. rewrite write_in_range by done.
  split.
  - rewrite replay_lookup, updateDisplay_common_write by done.
    rewrite bool_decide_true by done. by destruct anode.
  - intros seg Hseg.
    rewrite replay_lookup, updateDisplay_segment_write by done.
    rewrite elt_insert by lia. done.
Qed.

Lemma received_pattern_displayed_witness :
  ∃ s1 s2,
    receiveEvent 2 2 (deliver [2; 102] initial_state) = Done () s1 ∧
    updateDisplay true 2 s1 = Done () s2 ∧
    pins s2 !! elt commonPins 2 = Some (negb true) ∧
    (∀ seg, 0 ≤ seg < 8 →
       pins s2 !! elt segmentPins seg = Some (negb (Z.testbit 102 seg))).
Proof.
  apply (received_pattern_displayed true 2 2 initial_state 2 102);
    [reflexivity | lia | unfold NUM_DIGITS; lia | lia].
Defined.

Lemma not_written_updateDisplay anode ds d d' pin :
  0 ≤ d < 6 → 0 ≤ d' < 6 →
  last_write pin (updateDisplay_events anode ds d) = None →
  last_write pin (updateDisplay_events anode ds d') = None.
Proof.
  intros Hd Hd' Hnone. apply last_write_None.
  rewrite written_pins_updateDisplay. intros Hpin.
  assert (pin ∈ written_pins (updateDisplay_events anode ds d)) as Hw.
  { rewrite written_pins_updateDisplay.
    rewrite !elem_of_app in Hpin. rewrite !elem_of_app.
    destruct Hpin as [?|[Heq%list_elem_of_singleton|?]]; [by left| |by right; right].
    left. subst pin. apply list_elem_of_lookup. exists (Z.to_nat d').
    apply elt_lookup. simpl. lia. }
  apply last_write_Some in Hw as [lv Hlv]. congruence.
Qed.

(** X14.  The pin levels after [updateDisplay] depend on the last call only:
    showing digit [d2] after digit [d1] leaves the pins exactly as showing
    [d2] alone does, so nothing of [d1] remains. *)
Theorem updateDisplay_last_call_wins anode s d1 d2 :
  length (digitStates s) = 6%nat →
  0 ≤ d1 < NUM_DIGITS →
  0 ≤ d2 < NUM_DIGITS →
  ∃ s1 s2 s2',
    updateDisplay anode d1 s = Done () s1 ∧
    updateDisplay anode d2 s1 = Done () s2 ∧
    updateDisplay anode d2 s = Done () s2' ∧
    pins s2 = pins s2'.
Proof.
  intros Hlen Hd1 Hd2.
  eexists _, _, _. split; [by apply emits_updateDisplay|].
  split; [by apply emits_updateDisplay|].
  split; [by apply emits_updateDisplay|].
  simpl_state. apply map_eq. intros pin. unfold NUM_DIGITS in *.
  rewrite !replay_lookup.
  destruct (last_write pin (updateDisplay_events anode (digitStates s) d2))
    eqn:Hw; [done|].
  by rewrite (not_written_updateDisplay anode _ d2 d1 pin).
Qed.

Lemma updateDisplay_last_call_wins_witness :
  ∃ s1 s2 s2',
    updateDisplay true 4 initial_state = Done () s1 ∧
    updateDisplay true 1 s1 = Done () s2 ∧
    updateDisplay true 1 initial_state = Done () s2' ∧
    pins s2 = pins s2'.
Proof.
  apply (updateDisplay_last_call_wins true initial_state 4 1);
    [reflexivity | unfold NUM_DIGITS; lia | unfold NUM_DIGITS; lia].
Defined.

(** ** Instants of a refresh cycle *)

Lemma cycle_split_dwell anode ds d :
  0 ≤ d < 6 →
  cycle_events anode ds =
    cycle_until_dwell anode ds d ++ EvDelayMicroseconds 2
      :: cycle_after_dwell anode ds d.
Proof. intros Hd. cases_below d Hd; reflexivity. Qed.

Lemma dwell_segment_write anode ds d seg :
  0 ≤ d < 6 → 0 ≤ seg < 8 →
  last_write (elt segmentPins seg) (cycle_until_dwell anode ds d) =
    Some (drive anode (Z.testbit (elt ds d) seg)).
Proof.
  intros Hd Hseg. cases_below d Hd; cases_below seg Hseg; reflexivity.
Qed.

Lemma dwell_common_write anode ds d i :
  0 ≤ d < 6 → 0 ≤ i < 6 →
  last_write (elt commonPins i) (cycle_until_dwell anode ds d) =
    Some (drive anode (bool_decide (i = d))).
Proof.
  intros Hd Hi. cases_below d Hd; cases_below i Hi; reflexivity.
Qed.

(** X15.  During the busy wait of digit [d] in a refresh cycle the common of [d]
    is on, the other five are off and the segment lines show
    [digitStates[d]]. *)
Theorem dwell_shows_digit anode t_check t_done s d :
  length (digitStates s) = 6%nat →
  refresh_due t_check s = true →
  0 ≤ d < NUM_DIGITS →
  ∃ s' before after p v,
    loop anode t_check t_done s = Done () s' ∧
    trace s' = trace s ++ before ++ EvDelayMicroseconds 2 :: after ∧
    length (delays before) = Z.to_nat d ∧
    p = replay before (pins s) ∧
    read s d = Some v ∧
    p !! elt commonPins d = Some (negb anode) ∧
    (∀ i, 0 ≤ i < NUM_DIGITS → i ≠ d → p !! elt commonPins i = Some anode) ∧
    (∀ seg, 0 ≤ seg < 8 →
       p !! elt segmentPins seg =
         Some (if anode then negb (Z.testbit v seg) else Z.testbit v seg)).
Proof.
  intros Hlen Hdue Hd. unfold NUM_DIGITS in *.
  rewrite loop_run, Hdue by done.
  exists (set_lastUpdateTime (λ _, millis t_done)
            (play (cycle_events anode (digitStates s)) s)),
    (cycle_until_dwell anode (digitStates s) d),
    (cycle_after_dwell anode (digitStates s) d).
  eexists _, (elt (digitStates s) d). split; [done|]. simpl_state.
  split; [by rewrite (cycle_split_dwell anode _ d)|].
  split; [by cases_below d Hd|]. split; [done|].
  split.
  { unfold read. rewrite bool_decide_true by lia. apply elt_lookup. lia. }
  split; [|split].
  - rewrite replay_lookup, dwell_common_write by done.
    rewrite bool_decide_true by done. by destruct anode.
  - intros i Hi Hne. rewrite replay_lookup, dwell_common_write by done.
    rewrite bool_decide_false by done. by destruct anode.
  - intros seg Hseg. by rewrite replay_lookup, dwell_segment_write.
Qed.

Lemma dwell_shows_digit_witness :
  ∃ s' before after p v,
    loop true 3 3 initial_state = Done () s' ∧
    trace s' = trace initial_state ++ before ++ EvDelayMicroseconds 2 :: after ∧
    length (delays before) = Z.to_nat 3 ∧
    p = replay before (pins initial_state) ∧
    read initial_state 3 = Some v ∧
    p !! elt commonPins 3 = Some (negb true) ∧
    (∀ i, 0 ≤ i < NUM_DIGITS → i ≠ 3 → p !! elt commonPins i = Some true) ∧
    (∀ seg, 0 ≤ seg < 8 →
       p !! elt segmentPins seg = Some (negb (Z.testbit v seg))).
Proof.
  apply (dwell_shows_digit true 3 3 initial_state 3);
    [reflexivity | reflexivity | unfold NUM_DIGITS; lia].
Defined.

Lemma cycle_split_on anode ds d :
  0 ≤ d < 6 →
  cycle_events anode ds =
    cycle_until_on anode ds d ++ segment_events anode ds d
      ++ EvDelayMicroseconds 2 :: cycle_after_dwell anode ds d.
Proof. intros Hd. cases_below d Hd; reflexivity. Qed.

Lemma on_segment_write anode ds d seg :
  1 ≤ d < 6 → 0 ≤ seg < 8 →
  last_write (elt segmentPins seg) (cycle_until_on anode ds d) =
    Some (drive anode (Z.testbit (elt ds (d - 1)) seg)).
Proof.
  intros Hd Hseg.
  assert (0 ≤ d < 6) as Hd' by lia.
  cases_below d Hd'; try lia; cases_below seg Hseg; reflexivity.
Qed.

Lemma on_common_write anode ds d :
  0 ≤ d < 6 →
  last_write (elt commonPins d) (cycle_until_on anode ds d) =
    Some (drive anode true).
Proof. intros Hd. cases_below d Hd; reflexivity. Qed.

Lemma on_last anode ds d :
  0 ≤ d < 6 →
  last (cycle_until_on anode ds d) =
    Some (EvDigitalWrite (elt commonPins d) (negb anode)).
Proof. intros Hd. cases_below d Hd; by destruct anode. Qed.

(** X16.  [updateDisplay] switches the common of its digit on before it sets the
    segment lines: in a refresh cycle, at the instant the common of a digit
    [d >= 1] has been switched on, the segment lines still show the pattern
    of digit [d - 1]. *)
Theorem common_on_before_segments anode t_check t_done s d :
  length (digitStates s) = 6%nat →
  refresh_due t_check s = true →
  1 ≤ d < NUM_DIGITS →
  ∃ s' before after p v,
    loop anode t_check t_done s = Done () s' ∧
    trace s' = trace s ++ before ++ after ∧
    last before = Some (EvDigitalWrite (elt commonPins d) (negb anode)) ∧
    p = replay before (pins s) ∧
    read s (d - 1) = Some v ∧
    p !! elt commonPins d = Some (negb anode) ∧
    (∀ seg, 0 ≤ seg < 8 →
       p !! elt segmentPins seg =
         Some (if anode then negb (Z.testbit v seg) else Z.testbit v seg)).
Proof.
  intros Hlen Hdue Hd. unfold NUM_DIGITS in *.
  assert (0 ≤ d < 6) as Hd' by lia.
  rewrite loop_run, Hdue by done.
  exists (set_lastUpdateTime (λ _, millis t_done)
            (play (cycle_events anode (digitStates s)) s)),
    (cycle_until_on anode (digitStates s) d).
  eexists _, _, (elt (digitStates s) (d - 1)). split; [done|]. simpl_state.
  split; [by rewrite (cycle_split_on anode _ d)|].
  split; [by apply on_last|]. split; [done|].
  split.
  { unfold read. rewrite bool_decide_true by lia. apply elt_lookup. lia. }
  split.
  - rewrite replay_lookup, on_common_write by done. by destruct anode.
  - intros seg Hseg. by rewrite replay_lookup, on_segment_write.
Qed.

Lemma common_on_before_segments_witness :
  ∃ s' before after p v,
    loop true 3 3 initial_state = Done () s' ∧
    trace s' = trace initial_state ++ before ++ after ∧
    last before = Some (EvDigitalWrite (elt commonPins 2) (negb true)) ∧
    p = replay before (pins initial_state) ∧
    read initial_state (2 - 1) = Some v ∧
    p !! elt commonPins 2 = Some (negb true) ∧
    (∀ seg, 0 ≤ seg < 8 →
       p !! elt segmentPins seg = Some (negb (Z.testbit v seg))).
Proof.
  apply (common_on_before_segments true 3 3 initial_state 2);
    [reflexivity | reflexivity | unfold NUM_DIGITS; lia].
Defined.
